(** * Weak-Hamiltonian Eye-type contractions (Hadrons, MContraction)

    A shallow embedding of [TWeakHamiltonianEye] from
    [extras/Hadrons/Modules/MContraction/WeakHamiltonianEye.cc]:
    [getInput], [getOutput], [setup] and [execute].

    Scalars are exact: the complex numbers are any algebraically closed
    numeric field with conjugation, so rounding of the machine's floating
    point arithmetic is outside the model.  Lattice fields are finite
    functions over the sites, spin-colour values are square matrices, and
    [execute] is a computation in a state-and-exception monad over the
    environment's store. *)

From HB Require Import structures.
From mathcomp Require Import boot order algebra.
From mathcomp Require Import algC.
From Stdlib Require Import String.

Set Implicit Arguments.
Unset Strict Implicit.
Unset Printing Implicit Defensive.

Import GRing.Theory Num.Theory.
Local Open Scope ring_scope.

(** ** Exceptions and the execution monad *)

(** The error kinds of the environment, and [Undefined] for what C++ leaves
    undefined ([std::vector::operator[]] outside the vector). *)
Inductive Error : Type :=
  | UnresolvedInputError
  | DimensionMismatchError
  | AllocationError
  | ProjectionError
  | Undefined.

Inductive Outcome (A : Type) : Type :=
  | Ok of A
  | Throw of Error.

Arguments Throw {A} _.

(** A computation reads and writes a store; the store survives an
    exception, as the environment's objects survive a C++ [throw]. *)
Definition Exec (St A : Type) : Type := St -> Outcome A * St.

Definition ret {St A : Type} (a : A) : Exec St A := fun st => (Ok a, st).


Definition bind {St A B : Type} (m : Exec St A) (k : A -> Exec St B)
  : Exec St B :=
  fun st => match m st with
            | (Ok a, st') => k a st'
            | (Throw e, st') => (Throw e, st')
            end.

Definition gets {St A : Type} (f : St -> A) : Exec St A :=
  fun st => (Ok (f st), st).

Definition modify {St : Type} (f : St -> St) : Exec St unit :=
  fun st => (Ok tt, f st).

Definition lift {St A : Type} (o : Outcome A) : Exec St A :=
  fun st => (o, st).

Declare Scope exec_scope.
Delimit Scope exec_scope with exec.
Notation "x <- m ;; k" := (bind m (fun x => k))
  (at level 100, m at next level, right associativity) : exec_scope.
Notation "m ;; k" := (bind m (fun _ => k))
  (at level 100, right associativity) : exec_scope.

(** [for (mu = 0; mu < n; ++mu) body] visits [iota 0 n] in order and stops
    at the first exception. *)
Fixpoint for_each {St : Type} (s : seq nat) (body : nat -> Exec St unit)
  : Exec St unit :=
  match s with
  | [::] => ret tt
  | mu :: s' => bind (body mu) (fun _ => for_each s' body)
  end.

(** ** std::vector *)

(** [v[i]] read: defined inside the vector only. *)
Definition vec_at {T : Type} (v : seq T) (i : nat) : Outcome T :=
  match drop i v with
  | x :: _ => Ok x
  | [::] => Throw Undefined
  end.

(** [v[i] = x]: defined inside the vector only, and the size is kept. *)
Definition vec_set {T : Type} (v : seq T) (i : nat) (x : T)
  : Outcome (seq T) :=
  if (i < size v)%N then Ok (set_nth x v i x) else Throw Undefined.

(** ** Module parameters *)

(** Modelled from the spec: [WeakHamiltonianPar] of the absent header
    [WeakHamiltonian.hpp]; the four input identifiers, the sink time and
    the output path, under the names [execute] reads them by. *)
Record WeakHamiltonianPar : Type := MkPar {
  q1 : string;
  q2 : string;
  q3 : string;
  q4 : string;
  tSnk : nat;
  output : string
}.

(** Modelled from the spec: the diagram enumeration of the absent header
    [WeakHamiltonian.hpp]; exactly two results, Saucer first, Eye second. *)
Definition S_diag : nat := 0.
Definition E_diag : nat := 1.
Definition n_eye_diag : nat := 2.

(** [getInput] *)
Definition getInput (par : WeakHamiltonianPar) : seq string :=
  [:: q1 par; q2 par; q3 par; q4 par].

(** [getOutput] *)
Definition getOutput (par : WeakHamiltonianPar) : seq string := [::].

(** The loop header [for (mu = 0; mu < ndim; ++mu)]. *)
Definition directions (ndim : nat) : seq nat := iota 0 ndim.

(** Modelled from the spec: the environment's resolution of a name to an
    object (the absent [Environment]); the first object of that name. *)
Fixpoint lookup {T : Type} (name : string) (tbl : seq (string * T))
  : option T :=
  match tbl with
  | [::] => None
  | (n, o) :: tbl' => if String.eqb name n then Some o else lookup name tbl'
  end.

Section Model.

(** The complex numbers. *)
Variable C : numClosedFieldType.

(** The lattice: the spatial coordinates at one time, and the temporal
    extent.  A site is a spatial coordinate and a time. *)
Variable space : finType.
Variable Lt : nat.

Definition Site : Type := (space * 'I_Lt)%type.

(** ** Values and fields *)

Definition Ns : nat := 4.
Definition Nc : nat := 3.

(** Modelled from the spec: [SitePropagator], a square complex matrix on
    spin times colour. *)
Definition SitePropagator : Type := 'M[C]_(Ns * Nc).

(** Modelled from the spec: [PropagatorField] and [LatticeComplex], one
    value per site of the whole lattice. *)
Definition PropagatorField : Type := {ffun Site -> SitePropagator}.
Definition LatticeComplex : Type := {ffun Site -> C}.

(** Modelled from the spec: [SlicedPropagator], one site value per time;
    [execute] indexes it as a vector. *)
Definition SlicedPropagator : Type := seq SitePropagator.

(** The Dirac algebra is a table of the library: [g5] is
    [Gamma(Gamma::Algebra::Gamma5)] and [gL mu] is [GammaL(Gamma::gmu[mu])],
    each as the matrix it multiplies a spin-colour matrix by, and given
    for every [mu] the loops reach. *)
Variable g5 : SitePropagator.
Variable gL : nat -> SitePropagator.

(** [RESULT_FILE_NAME], a macro of the library on the output stem. *)
Variable RESULT_FILE_NAME : string -> string.

(** Modelled from the spec: the library's [adj] on a site value, the
    Hermitian adjoint. *)
Definition adj (m : SitePropagator) : SitePropagator :=
  map_mx Num.conj_op (m^T).

(** Modelled from the spec: the library's lattice algebra, evaluated site
    by site.  The product of two fields: *)
Definition lat_mul (a b : PropagatorField) : PropagatorField :=
  [ffun x => a x *m b x].

(** Modelled from the spec: a field times one site value or a gamma
    matrix, the same right factor at every site. *)
Definition lat_mul_site (a : PropagatorField) (m : SitePropagator)
  : PropagatorField :=
  [ffun x => a x *m m].

(** Modelled from the spec: [adj] of a field. *)
Definition lat_adj (a : PropagatorField) : PropagatorField :=
  [ffun x => adj (a x)].

(** Modelled from the spec: [trace] of a field, the full trace at each
    site. *)
Definition lat_trace (a : PropagatorField) : LatticeComplex :=
  [ffun x => \tr (a x)].

(** Modelled from the spec: product, sum and zero of complex fields. *)
Definition cplx_mul (a b : LatticeComplex) : LatticeComplex :=
  [ffun x => a x * b x].

Definition cplx_add (a b : LatticeComplex) : LatticeComplex :=
  [ffun x => a x + b x].

Definition cplx_zero : LatticeComplex := [ffun _ => 0].

(** ** The header's macros *)

(** Modelled from the spec: [MAKE_SE_BODY] of the absent header
    [WeakHamiltonian.hpp]; at every site
    [q3 * g5 * q1_sink * adj(q2) * g5 * insertion], the sink value being
    the same at every site.  The comment above [execute] gives the same
    product. *)
Definition MAKE_SE_BODY (Q_1 : SitePropagator) (Q_2 Q_3 : PropagatorField)
    (gamma : SitePropagator) : PropagatorField :=
  lat_mul_site
    (lat_mul_site
       (lat_mul (lat_mul_site (lat_mul_site Q_3 g5) Q_1) (lat_adj Q_2))
       g5)
    gamma.

(** Modelled from the spec: [MAKE_SE_LOOP] of the absent header; at every
    site [q4 * insertion]. *)
Definition MAKE_SE_LOOP (Q_loop : PropagatorField) (gamma : SitePropagator)
  : PropagatorField :=
  lat_mul_site Q_loop gamma.

(** Modelled from the spec: [sliceSum] of the library along the time
    direction; for each time, the sum of the field over every spatial
    coordinate at that time, one value per time. *)
Definition sliceSum (f : LatticeComplex) : seq C :=
  [seq \sum_(x : space) f (x, t) | t <- enum 'I_Lt].

(** Modelled from the spec: the library's [TensorRemove]; a [TComplex]
    holds one complex number. *)
Definition TensorRemove (z : C) : C := z.

(** Modelled from the spec: [Result] of the absent header, with the two
    fields [MAKE_DIAG] is given at its uses, the diagram's label and its
    correlator. *)
Record Result : Type := MkResult {
  name : string;
  corr : seq C
}.

(** Modelled from the spec: the output collaborator, as the events that
    reach it; the file opened by the [ResultWriter] constructor, and each
    [write] with its key and payload. *)
Inductive IOEvent : Type :=
  | Open of string
  | Write of string & string & seq Result.

(** A [ResultWriter] is known by the file it writes. *)
Definition ResultWriter : Type := string.

(** ** The environment *)

Inductive Object : Type :=
  | Sliced of SlicedPropagator
  | Field of PropagatorField.

(** The module's temporaries, created by [setup]. *)
Record Scratch : Type := MkScratch {
  expbuf : LatticeComplex;
  tmp1 : PropagatorField;
  tmp2 : LatticeComplex;
  S_body : seq PropagatorField;
  S_loop : seq PropagatorField;
  E_body : seq LatticeComplex;
  E_loop : seq LatticeComplex
}.

Record Store : Type := MkStore {
  objects : seq (string * Object);
  Nd : nat;
  scratch : Scratch;
  io : seq IOEvent
}.

(** Field updates of the store. *)
Definition with_scratch (f : Scratch -> Scratch) (st : Store) : Store :=
  MkStore (objects st) (Nd st) (f (scratch st)) (io st).

Definition with_io (f : seq IOEvent -> seq IOEvent) (st : Store) : Store :=
  MkStore (objects st) (Nd st) (scratch st) (f (io st)).

Definition set_expbuf (v : LatticeComplex) (sc : Scratch) : Scratch :=
  MkScratch v (tmp1 sc) (tmp2 sc) (S_body sc) (S_loop sc)
            (E_body sc) (E_loop sc).

Definition set_S_body (v : seq PropagatorField) (sc : Scratch) : Scratch :=
  MkScratch (expbuf sc) (tmp1 sc) (tmp2 sc) v (S_loop sc)
            (E_body sc) (E_loop sc).

Definition set_S_loop (v : seq PropagatorField) (sc : Scratch) : Scratch :=
  MkScratch (expbuf sc) (tmp1 sc) (tmp2 sc) (S_body sc) v
            (E_body sc) (E_loop sc).

Definition set_E_body (v : seq LatticeComplex) (sc : Scratch) : Scratch :=
  MkScratch (expbuf sc) (tmp1 sc) (tmp2 sc) (S_body sc) (S_loop sc)
            v (E_loop sc).

Definition set_E_loop (v : seq LatticeComplex) (sc : Scratch) : Scratch :=
  MkScratch (expbuf sc) (tmp1 sc) (tmp2 sc) (S_body sc) (S_loop sc)
            (E_body sc) v.

(** Modelled from the spec: [envGet] of the absent [Module.hpp] and
    [Environment]; a name resolves to an object of the requested kind, and
    an unknown name or an object of the other kind is an
    [UnresolvedInputError]. *)
Definition envGetSliced (n : string) : Exec Store SlicedPropagator :=
  fun st => match lookup n (objects st) with
            | Some (Sliced v) => (Ok v, st)
            | _ => (Throw UnresolvedInputError, st)
            end.

Definition envGetField (n : string) : Exec Store PropagatorField :=
  fun st => match lookup n (objects st) with
            | Some (Field f) => (Ok f, st)
            | _ => (Throw UnresolvedInputError, st)
            end.

(** Modelled from the spec: [env().getNd()], the lattice's number of
    dimensions. *)
Definition getNd : Exec Store nat := gets Nd.

(** Modelled from the spec: [ResultWriter writer(file)] opens the file. *)
Definition openResultWriter (file : string) : Exec Store ResultWriter :=
  fun st => (Ok file, with_io (rcons^~ (Open file)) st).

(** Modelled from the spec: [write(writer, key, payload)] hands the
    payload to the writer. *)
Definition write (writer : ResultWriter) (key : string)
    (payload : seq Result) : Exec Store unit :=
  modify (with_io (rcons^~ (Write writer key payload))).

(** Element reads and assignments of the four scratch vectors, through the
    references [envGetTmp] declares. *)
Definition read_S_body (mu : nat) : Exec Store PropagatorField :=
  fun st => (vec_at (S_body (scratch st)) mu, st).

Definition read_S_loop (mu : nat) : Exec Store PropagatorField :=
  fun st => (vec_at (S_loop (scratch st)) mu, st).

Definition read_E_body (mu : nat) : Exec Store LatticeComplex :=
  fun st => (vec_at (E_body (scratch st)) mu, st).

Definition read_E_loop (mu : nat) : Exec Store LatticeComplex :=
  fun st => (vec_at (E_loop (scratch st)) mu, st).

Definition assign_S_body (mu : nat) (val : PropagatorField)
  : Exec Store unit :=
  (v <- gets (fun st => S_body (scratch st)) ;;
   v' <- lift (vec_set v mu val) ;;
   modify (with_scratch (set_S_body v')))%exec.

Definition assign_S_loop (mu : nat) (val : PropagatorField)
  : Exec Store unit :=
  (v <- gets (fun st => S_loop (scratch st)) ;;
   v' <- lift (vec_set v mu val) ;;
   modify (with_scratch (set_S_loop v')))%exec.

Definition assign_E_body (mu : nat) (val : LatticeComplex)
  : Exec Store unit :=
  (v <- gets (fun st => E_body (scratch st)) ;;
   v' <- lift (vec_set v mu val) ;;
   modify (with_scratch (set_E_body v')))%exec.

Definition assign_E_loop (mu : nat) (val : LatticeComplex)
  : Exec Store unit :=
  (v <- gets (fun st => E_loop (scratch st)) ;;
   v' <- lift (vec_set v mu val) ;;
   modify (with_scratch (set_E_loop v')))%exec.

(** Modelled from the spec: [SUM_MU(buf, res)] of the absent header, at its
    two uses with [expbuf] for [buf]; the buffer is cleared and the
    expression [res], in which [mu] is free, is added to it once for each
    direction. *)
Definition SUM_MU (ndim : nat) (res : nat -> Exec Store LatticeComplex)
  : Exec Store unit :=
  (modify (with_scratch (set_expbuf cplx_zero)) ;;
   for_each (directions ndim) (fun mu =>
     r <- res mu ;;
     modify (with_scratch (fun sc =>
       set_expbuf (cplx_add (expbuf sc) r) sc))))%exec.

(** Modelled from the spec: [MAKE_DIAG(exp, buf, res, n)] of the absent
    header, at its two uses with [expbuf] for [exp]; the field is projected
    on the time direction into [buf] and the record gets the name [n] and
    the projected values.  It returns the buffer and the record. *)
Definition MAKE_DIAG (n : string) : Exec Store (seq C * Result) :=
  (exp <- gets (fun st => expbuf (scratch st)) ;;
   let buf := sliceSum exp in
   ret (buf, MkResult n [seq TensorRemove z | z <- buf]))%exec.

(** ** setup *)

(** [setup]: the three lattice temporaries and four vectors of [ndim]
    fields.  A newly constructed lattice holds whatever its memory held:
    [fresh_prop] and [fresh_cplx].  The allocations of [envTmpLat] and
    [envTmp] are taken to succeed. *)
Definition setup (fresh_prop : PropagatorField) (fresh_cplx : LatticeComplex)
  : Exec Store unit :=
  (ndim <- getNd ;;
   modify (with_scratch (fun _ =>
     MkScratch fresh_cplx fresh_prop fresh_cplx
               (nseq ndim fresh_prop) (nseq ndim fresh_prop)
               (nseq ndim fresh_cplx) (nseq ndim fresh_cplx))))%exec.

(** ** execute *)

(** Setup for S-type contractions. *)
Definition saucer_setup (ndim : nat) (q1Snk : SitePropagator)
    (q2_ q3_ q4_ : PropagatorField) : Exec Store unit :=
  for_each (directions ndim) (fun mu =>
    assign_S_body mu (MAKE_SE_BODY q1Snk q2_ q3_ (gL mu)) ;;
    assign_S_loop mu (MAKE_SE_LOOP q4_ (gL mu)))%exec.

(** Perform S-type contractions. *)
Definition saucer_contract (ndim : nat) : Exec Store unit :=
  SUM_MU ndim (fun mu =>
    b <- read_S_body mu ;;
    l <- read_S_loop mu ;;
    ret (lat_trace (lat_mul b l)))%exec.

(** Recycle sub-expressions for E-type contractions. *)
Definition eye_setup (ndim : nat) : Exec Store unit :=
  for_each (directions ndim) (fun mu =>
    b <- read_S_body mu ;;
    assign_E_body mu (lat_trace b) ;;
    l <- read_S_loop mu ;;
    assign_E_loop mu (lat_trace l))%exec.

(** Perform E-type contractions. *)
Definition eye_contract (ndim : nat) : Exec Store unit :=
  SUM_MU ndim (fun mu =>
    b <- read_E_body mu ;;
    l <- read_E_loop mu ;;
    ret (cplx_mul b l))%exec.

(** [execute], statement by statement: the writer is constructed first,
    then the four inputs are resolved, [result] holds [n_eye_diag] default
    records, and the sink value [q1Snk] is [q1[tSnk]].  [corrbuf] is the
    buffer [MAKE_DIAG] returns next to the record; the scratch fields are
    those of the store.  The log message is left out. *)
Definition execute (par : WeakHamiltonianPar) : Exec Store unit :=
  (writer <- openResultWriter (RESULT_FILE_NAME (output par)) ;;
   q1_ <- envGetSliced (q1 par) ;;
   q2_ <- envGetField (q2 par) ;;
   q3_ <- envGetField (q3 par) ;;
   q4_ <- envGetField (q4 par) ;;
   let result := nseq n_eye_diag (MkResult EmptyString [::]) in
   ndim <- getNd ;;
   q1Snk <- lift (vec_at q1_ (tSnk par)) ;;
   saucer_setup ndim q1Snk q2_ q3_ q4_ ;;
   saucer_contract ndim ;;
   d <- MAKE_DIAG "HW_S" ;;
   result <- lift (vec_set result S_diag d.2) ;;
   eye_setup ndim ;;
   eye_contract ndim ;;
   d <- MAKE_DIAG "HW_E" ;;
   result <- lift (vec_set result E_diag d.2) ;;
   write writer "HW_Eye" result)%exec.

End Model.

Arguments Sliced {C space Lt} _.
Arguments Open {C} _.

(** ** What an execution is expected to compute *)

Section Expected.

Variable C : numClosedFieldType.
Variable space : finType.
Variable Lt : nat.
Variable g5 : SitePropagator C.
Variable gL : nat -> SitePropagator C.

(** The Saucer body and loop at direction [mu], from the inputs. *)
Definition body_of (q1Snk : SitePropagator C)
    (Q2 Q3 : PropagatorField C space Lt) (mu : nat)
  : PropagatorField C space Lt :=
  MAKE_SE_BODY g5 q1Snk Q2 Q3 (gL mu).

Definition loop_of (Q4 : PropagatorField C space Lt) (mu : nat)
  : PropagatorField C space Lt :=
  MAKE_SE_LOOP Q4 (gL mu).

(** The sum over the directions of [trace(body * loop)], for the bodies
    and loops found in two vectors. *)
Definition saucer_sum (ndim : nat) (bodies loops : seq (PropagatorField C space Lt))
  : LatticeComplex C space Lt :=
  [ffun x => \sum_(mu < ndim)
               \tr (nth (0 : PropagatorField C space Lt) bodies mu x
                    *m nth (0 : PropagatorField C space Lt) loops mu x)].

(** The sum over the directions of [body * loop], for the traced bodies
    and loops found in two vectors. *)
Definition eye_sum (ndim : nat) (bodies loops : seq (LatticeComplex C space Lt))
  : LatticeComplex C space Lt :=
  [ffun x => \sum_(mu < ndim)
               nth (0 : LatticeComplex C space Lt) bodies mu x
               * nth (0 : LatticeComplex C space Lt) loops mu x].

(** The four scratch vectors and the two complex fields of a whole
    execution on [ndim] directions. *)
Definition S_body_of (ndim : nat) (q1Snk : SitePropagator C)
    (Q2 Q3 : PropagatorField C space Lt) : seq (PropagatorField C space Lt) :=
  mkseq (body_of q1Snk Q2 Q3) ndim.

Definition S_loop_of (ndim : nat) (Q4 : PropagatorField C space Lt)
  : seq (PropagatorField C space Lt) :=
  mkseq (loop_of Q4) ndim.

Definition saucer_field (ndim : nat) (q1Snk : SitePropagator C)
    (Q2 Q3 Q4 : PropagatorField C space Lt) : LatticeComplex C space Lt :=
  saucer_sum ndim (S_body_of ndim q1Snk Q2 Q3) (S_loop_of ndim Q4).

Definition eye_field (ndim : nat) (q1Snk : SitePropagator C)
    (Q2 Q3 Q4 : PropagatorField C space Lt) : LatticeComplex C space Lt :=
  eye_sum ndim
    [seq lat_trace b | b <- S_body_of ndim q1Snk Q2 Q3]
    [seq lat_trace l | l <- S_loop_of ndim Q4].

(** The two records of a whole execution. *)
Definition results_of (ndim : nat) (q1Snk : SitePropagator C)
    (Q2 Q3 Q4 : PropagatorField C space Lt) : seq (Result C) :=
  [:: MkResult "HW_S" (sliceSum (saucer_field ndim q1Snk Q2 Q3 Q4));
      MkResult "HW_E" (sliceSum (eye_field ndim q1Snk Q2 Q3 Q4))].

(** The store a whole execution ends in. *)
Definition final_store (file : string) (q1Snk : SitePropagator C)
    (Q2 Q3 Q4 : PropagatorField C space Lt) (st : Store C space Lt)
  : Store C space Lt :=
  let ndim := Nd st in
  let sb := S_body_of ndim q1Snk Q2 Q3 in
  let sl := S_loop_of ndim Q4 in
  MkStore (objects st) ndim
    (MkScratch (eye_field ndim q1Snk Q2 Q3 Q4)
               (tmp1 (scratch st)) (tmp2 (scratch st))
               sb sl
               [seq lat_trace b | b <- sb] [seq lat_trace l | l <- sl])
    (rcons (rcons (io st) (Open file))
           (Write file "HW_Eye" (results_of ndim q1Snk Q2 Q3 Q4))).

(** The scratch vectors have one field per direction. *)
Definition allocated (ndim : nat) (sc : Scratch C space Lt) : bool :=
  [&& size (S_body sc) == ndim, size (S_loop sc) == ndim,
      size (E_body sc) == ndim & size (E_loop sc) == ndim].

(** Each of the four names resolves to an object of its kind. *)
Definition is_sliced (o : option (Object C space Lt)) : bool :=
  if o is Some (Sliced _) then true else false.

Definition is_field (o : option (Object C space Lt)) : bool :=
  if o is Some (Field _) then true else false.

Definition resolvable (par : WeakHamiltonianPar) (st : Store C space Lt)
  : bool :=
  [&& is_sliced (lookup (q1 par) (objects st)),
      is_field (lookup (q2 par) (objects st)),
      is_field (lookup (q3 par) (objects st))
    & is_field (lookup (q4 par) (objects st))].

(** The inputs resolve to [Q1], [Q2], [Q3] and [Q4]. *)
Definition resolves (par : WeakHamiltonianPar) (st : Store C space Lt)
    (Q1 : SlicedPropagator C) (Q2 Q3 Q4 : PropagatorField C space Lt)
  : Prop :=
  [/\ lookup (q1 par) (objects st) = Some (Sliced Q1),
      lookup (q2 par) (objects st) = Some (Field Q2),
      lookup (q3 par) (objects st) = Some (Field Q3)
    & lookup (q4 par) (objects st) = Some (Field Q4)].

(** The state [execute] is meant to be called in: the inputs resolve, the
    sink time is a time of [q1], and [setup] has allocated the scratch
    vectors for the lattice's dimension. *)
Definition ready (par : WeakHamiltonianPar) (st : Store C space Lt)
    (Q1 : SlicedPropagator C) (Q2 Q3 Q4 : PropagatorField C space Lt)
  : Prop :=
  [/\ resolves par st Q1 Q2 Q3 Q4, (tSnk par < size Q1)%N
    & allocated (Nd st) (scratch st)].

(** The Saucer and Eye values at a site, written out from the inputs:
    S: trace(q3*g5*q1*adj(q2)*g5*gL[mu] * q4*gL[mu]),
    E: trace(q3*g5*q1*adj(q2)*g5*gL[mu]) * trace(q4*gL[mu]). *)
Definition saucer_site (ndim : nat) (q1Snk : SitePropagator C)
    (Q2 Q3 Q4 : PropagatorField C space Lt) (x : Site space Lt) : C :=
  \sum_(mu < ndim)
     \tr ((Q3 x *m g5 *m q1Snk *m adj (Q2 x) *m g5 *m gL mu)
          *m (Q4 x *m gL mu)).

Definition eye_site (ndim : nat) (q1Snk : SitePropagator C)
    (Q2 Q3 Q4 : PropagatorField C space Lt) (x : Site space Lt) : C :=
  \sum_(mu < ndim)
     \tr (Q3 x *m g5 *m q1Snk *m adj (Q2 x) *m g5 *m gL mu)
     * \tr (Q4 x *m gL mu).

(** What no phase of an execution changes: the environment's objects,
    its dimension and the result file. *)
Definition quiet_from (st s : Store C space Lt) : Prop :=
  [/\ objects s = objects st, Nd s = Nd st & io s = io st].

(** The records written so far, in order, and the number of writes. *)
Definition payload (e : IOEvent C) : seq (Result C) :=
  if e is Write _ _ rs then rs else [::].

Definition emitted (log : seq (IOEvent C)) : seq (Result C) :=
  flatten [seq payload e | e <- log].

Definition is_write (e : IOEvent C) : bool :=
  if e is Write _ _ _ then true else false.

(** A field scaled by a complex constant at every site, and the zero
    field. *)
Definition scale_field (c : C) (Q : PropagatorField C space Lt)
  : PropagatorField C space Lt :=
  [ffun x => c *: Q x].

Definition zero_field : PropagatorField C space Lt := [ffun _ => 0].

End Expected.

(** ** Conditions on the store *)

Section Conditions.

Variable C : numClosedFieldType.
Variable space : finType.
Variable Lt : nat.

(** Each scratch vector has an entry for every direction below [n]. *)
Definition roomy (n : nat) (sc : Scratch C space Lt) : bool :=
  [&& (n <= size (S_body sc))%N, (n <= size (S_loop sc))%N,
      (n <= size (E_body sc))%N & (n <= size (E_loop sc))%N].

(** The sink time is a time of the sliced propagator [q1] names. *)
Definition sink_in_range (par : WeakHamiltonianPar) (st : Store C space Lt)
  : bool :=
  if lookup (q1 par) (objects st) is Some (Sliced v)
  then (tSnk par < size v)%N else false.

(** What an execution keeps of the scratch: the two temporaries it never
    uses and the length of each vector. *)
Definition steady (st s : Store C space Lt) : Prop :=
  [/\ tmp1 (scratch s) = tmp1 (scratch st),
      tmp2 (scratch s) = tmp2 (scratch st),
      size (S_body (scratch s)) = size (S_body (scratch st)),
      size (S_loop (scratch s)) = size (S_loop (scratch st))
    & size (E_body (scratch s)) = size (E_body (scratch st))
      /\ size (E_loop (scratch s)) = size (E_loop (scratch st))].

(** The same store over another table of objects. *)
Definition with_objects (objs : seq (string * Object C space Lt))
    (st : Store C space Lt) : Store C space Lt :=
  MkStore objs (Nd st) (scratch st) (io st).

(** A computation that runs the same over another table of objects. *)
Definition blind_to (objs : seq (string * Object C space Lt)) (A : Type)
    (m : Exec (Store C space Lt) A) : Prop :=
  forall s : Store C space Lt,
    m (with_objects objs s) = ((m s).1, with_objects objs (m s).2).

End Conditions.

(** ** The reduction with its edge case *)

Section Guarded.

Variable C : numClosedFieldType.
Variable space : finType.
Variable Lt : nat.
Variable g5 : SitePropagator C.
Variable gL : nat -> SitePropagator C.
Variable RESULT_FILE_NAME : string -> string.



End Guarded.

(** ** A small lattice to run on *)

Module Example.

(** Two spatial sites and two times, over the algebraic numbers. *)
Definition space : finType := bool.
Definition Lt : nat := 2.

(** The chirality matrix in the chiral basis, spin index outermost. *)
Definition g5 : SitePropagator algC :=
  \matrix_(i, j) (if i == j then (if (i < 6)%N then 1 else -1) else 0).

(** The left-handed projection, the same for every direction. *)
Definition gL (mu : nat) : SitePropagator algC := 1%:M - g5.

Definition RESULT_FILE_NAME (stem : string) : string :=
  String.append stem ".xml".

Definition par : WeakHamiltonianPar :=
  MkPar "q1" "q2" "q3" "q4" 0 "hw_eye".

Definition unit_field : PropagatorField algC space Lt := [ffun _ => 1%:M].

Definition sink : SlicedPropagator algC := [:: 1%:M; 1%:M].

Definition objs (Q4 : PropagatorField algC space Lt)
  : seq (string * Object algC space Lt) :=
  [:: ("q1"%string, Sliced sink); ("q2"%string, Field unit_field);
      ("q3"%string, Field unit_field); ("q4"%string, Field Q4)].

Definition no_scratch : Scratch algC space Lt :=
  MkScratch 0 0 0 [::] [::] [::] [::].

(** A four-dimensional lattice after [setup]. *)
Definition store4 (Q4 : PropagatorField algC space Lt)
  : Store algC space Lt :=
  (setup 0 0 (MkStore (objs Q4) 4 no_scratch [::])).2.

(** An environment without [q3]. *)
Definition store_missing : Store algC space Lt :=
  MkStore [:: ("q1"%string, Sliced sink); ("q2"%string, Field unit_field);
              ("q4"%string, Field unit_field)]
          4 no_scratch [::].

End Example.

(** ** Stores at the edges *)

Module Corner.

(** Scratch vectors of three fields on a lattice of two directions. *)
Definition wide_scratch : Scratch algC Example.space Example.Lt :=
  MkScratch 0 0 0
    (nseq 3 Example.unit_field) (nseq 3 Example.unit_field)
    (nseq 3 0) (nseq 3 0).

Definition store_wide : Store algC Example.space Example.Lt :=
  MkStore (Example.objs Example.unit_field) 2 wide_scratch [::].

(** Four directions and scratch vectors without entries, for [setup] to
    allocate. *)
Definition store_unset : Store algC Example.space Example.Lt :=
  MkStore (Example.objs Example.unit_field) 4 Example.no_scratch [::].

(** A sink time after the last time of [q1]. *)
Definition par_late : WeakHamiltonianPar :=
  MkPar "q1" "q2" "q3" "q4" 5 "hw_eye".

(** The environment with one more object, ahead of the inputs. *)
Definition objs_more : seq (string * Object algC Example.space Example.Lt) :=
  ("other"%string, Field (scale_field 2 Example.unit_field))
  :: Example.objs Example.unit_field.

End Corner.

(** ** A lattice without directions *)

Module Degenerate.

(** No direction: one site and one time. *)
Definition space : finType := unit.
Definition Lt : nat := 1.

Definition unit_field : PropagatorField algC space Lt := [ffun _ => 1%:M].

Definition sink : SlicedPropagator algC := [:: 1%:M].

Definition objs : seq (string * Object algC space Lt) :=
  [:: ("q1"%string, Sliced sink); ("q2"%string, Field unit_field);
      ("q3"%string, Field unit_field); ("q4"%string, Field unit_field)].


End Degenerate.

(** ** Vectors and loops *)

Section Vectors.

Variable T : Type.

Lemma vec_at_nth (x0 : T) (v : seq T) (i : nat) :
  (i < size v)%N -> vec_at v i = Ok (nth x0 v i).
Proof. by move=> lt_i; rewrite /vec_at (drop_nth x0 lt_i). Qed.

(** Assigning slot [k] of a vector whose first [k] slots are already
    final. *)
Lemma vec_set_next (f : nat -> T) (v : seq T) (k : nat) :
  (k < size v)%N ->
  vec_set (mkseq f k ++ drop k v) k (f k)
  = Ok (mkseq f k.+1 ++ drop k.+1 v).
Proof.
move=> lt_k.
have lt_k' : (k < size (mkseq f k ++ drop k v))%N.
  by rewrite size_cat size_mkseq size_drop subnKC // ltnW.
have -> : mkseq f k.+1 = rcons (mkseq f k) (f k).
  by rewrite /mkseq -addn1 iotaD map_cat /= add0n cats1.
rewrite /vec_set lt_k' set_nthE lt_k' take_size_cat ?size_mkseq //.
rewrite drop_cat size_mkseq ltnNge leqnSn /= subSn // subnn drop_drop add1n.
by rewrite cat_rcons.
Qed.

End Vectors.

Section Loops.

Variable St : Type.

(** The loop rule: an invariant indexed by the number of iterations
    done. *)
Lemma for_each_iota (I : nat -> St -> Prop) (body : nat -> Exec St unit)
    (m n : nat) (st : St) :
  I m st ->
  (forall mu s, (m <= mu < m + n)%N -> I mu s ->
     exists2 s', body mu s = (Ok tt, s') & I mu.+1 s') ->
  exists2 s', for_each (iota m n) body st = (Ok tt, s') & I (m + n)%N s'.
Proof.
elim: n m st => [|n IHn] m st Im step.
  by exists st; rewrite ?addn0.
have m_in : (m <= m < m + n.+1)%N by rewrite leqnn -{1}[m]addn0 ltn_add2l.
have [s1 body_m I1] := step m st m_in Im.
have step' mu s : (m.+1 <= mu < m.+1 + n)%N -> I mu s ->
    exists2 s', body mu s = (Ok tt, s') & I mu.+1 s'.
  by case/andP=> lt_mu mu_lt; apply: step; rewrite (ltnW lt_mu) -addSnnS.
have [s2 loop I2] := IHn m.+1 s1 I1 step'.
by exists s2; rewrite -?addSnnS //= /bind body_m.
Qed.

Lemma for_each_directions (I : nat -> St -> Prop)
    (body : nat -> Exec St unit) (n : nat) (st : St) :
  I 0%N st ->
  (forall mu s, (mu < n)%N -> I mu s ->
     exists2 s', body mu s = (Ok tt, s') & I mu.+1 s') ->
  exists2 s', for_each (directions n) body st = (Ok tt, s') & I n s'.
Proof.
move=> I0 step; rewrite /directions -[n in I n]add0n.
by apply: for_each_iota => // mu s; rewrite add0n /=; apply: step.
Qed.

Lemma for_each_directions_eq (I : nat -> St -> Prop)
    (body : nat -> Exec St unit) (n : nat) (st st' : St) :
  I 0%N st ->
  (forall mu s, (mu < n)%N -> I mu s ->
     exists2 s', body mu s = (Ok tt, s') & I mu.+1 s') ->
  (forall s, I n s -> s = st') ->
  for_each (directions n) body st = (Ok tt, st').
Proof.
move=> I0 step last_eq.
by have [s -> /last_eq ->] := for_each_directions I0 step.
Qed.

(** A property of the store that every iteration keeps, whatever the
    outcome, is kept by the loop. *)
Lemma for_each_keeps (P : St -> Prop) (body : nat -> Exec St unit)
    (s : seq nat) (st : St) :
  (forall mu s0, P s0 -> P (body mu s0).2) ->
  P st -> P (for_each s body st).2.
Proof.
move=> keep; elim: s st => [|mu s IHs] st Pst //=.
rewrite /bind; case body_mu: (body mu st) => [[[]|e] s1] /=.
  by apply: IHs; rewrite -[s1]/((Ok tt, s1).2) -body_mu; apply: keep.
by rewrite -[s1]/((Throw (A := unit) e, s1).2) -body_mu; apply: keep.
Qed.

End Loops.

(** ** The phases of an execution *)

Section Phases.

Variable C : numClosedFieldType.
Variable space : finType.
Variable Lt : nat.
Variable g5 : SitePropagator C.
Variable gL : nat -> SitePropagator C.

Local Notation Store := (Store C space Lt).
Local Notation Scratch := (Scratch C space Lt).
Local Notation PropagatorField := (PropagatorField C space Lt).
Local Notation LatticeComplex := (LatticeComplex C space Lt).

Lemma store_eta (st : Store) :
  MkStore (objects st) (Nd st)
    (MkScratch (expbuf (scratch st)) (tmp1 (scratch st)) (tmp2 (scratch st))
       (S_body (scratch st)) (S_loop (scratch st))
       (E_body (scratch st)) (E_loop (scratch st)))
    (io st) = st.
Proof. by case: st => o n [] *. Qed.

Lemma allocatedP (n : nat) (sc : Scratch) :
  reflect [/\ size (S_body sc) = n, size (S_loop sc) = n,
              size (E_body sc) = n & size (E_loop sc) = n]
          (allocated n sc).
Proof.
apply: (iffP and4P) => [[/eqP ? /eqP ? /eqP ? /eqP ?] //|[-> -> -> ->]].
by split.
Qed.

(** [setup] allocates the scratch vectors for the lattice's dimension and
    touches nothing else. *)
Lemma setup_allocated (fresh_prop : PropagatorField)
    (fresh_cplx : LatticeComplex) (st : Store) :
  let: (o, s) := setup fresh_prop fresh_cplx st in
  [/\ o = Ok tt, allocated (Nd s) (scratch s), objects s = objects st,
      Nd s = Nd st & io s = io st].
Proof.
rewrite /setup /bind /getNd /gets /modify /=; split=> //.
by rewrite /allocated /= !size_nseq !eqxx.
Qed.

(** Setup for S-type contractions: one body and one loop per direction. *)
Lemma saucer_setup_ok (n : nat) (q1Snk : SitePropagator C)
    (Q2 Q3 Q4 : PropagatorField) (st : Store) :
  size (S_body (scratch st)) = n -> size (S_loop (scratch st)) = n ->
  saucer_setup g5 gL n q1Snk Q2 Q3 Q4 st
  = (Ok tt,
     with_scratch (fun sc =>
       set_S_loop (S_loop_of gL n Q4)
         (set_S_body (S_body_of g5 gL n q1Snk Q2 Q3) sc)) st).
Proof.
move=> size_b size_l.
pose body := body_of g5 gL q1Snk Q2 Q3; pose loop := loop_of gL Q4.
pose I k (s : Store) :=
  s = with_scratch (fun sc =>
        set_S_loop (mkseq loop k ++ drop k (S_loop sc))
          (set_S_body (mkseq body k ++ drop k (S_body sc)) sc)) st.
have I0 : I 0%N st by rewrite /I /with_scratch /= !drop0 store_eta.
apply: (for_each_directions_eq I0) => [mu s lt_mu ->|s ->].
  exists (with_scratch (fun sc =>
        set_S_loop (mkseq loop mu.+1 ++ drop mu.+1 (S_loop sc))
          (set_S_body (mkseq body mu.+1 ++ drop mu.+1 (S_body sc)) sc)) st);
    last by [].
  rewrite /bind /assign_S_body /assign_S_loop /bind /gets /lift /modify /=.
  by rewrite !vec_set_next ?size_b ?size_l.
by rewrite /with_scratch /= !drop_oversize ?size_b ?size_l // !cats0.
Qed.

Lemma set_expbuf_eq (e e' : LatticeComplex) (st : Store) :
  e = e' ->
  with_scratch (set_expbuf e) st = with_scratch (set_expbuf e') st.
Proof. by move->. Qed.

(** [SUM_MU]: the buffer ends as the sum of the expression over the
    directions below [n], when the expression can be evaluated at each of
    them and leaves the store alone. *)
Lemma SUM_MU_ok (n : nat) (res : nat -> Exec Store LatticeComplex)
    (r : nat -> LatticeComplex) (st : Store) :
  (forall mu e, (mu < n)%N ->
     res mu (with_scratch (set_expbuf e) st)
     = (Ok (r mu), with_scratch (set_expbuf e) st)) ->
  SUM_MU n res st
  = (Ok tt, with_scratch (set_expbuf [ffun x => \sum_(mu < n) r mu x]) st).
Proof.
move=> res_ok.
pose part k : LatticeComplex := [ffun x => \sum_(0 <= mu < k) r mu x].
pose I k (s : Store) := s = with_scratch (set_expbuf (part k)) st.
have I0 : I 0%N (with_scratch (set_expbuf (cplx_zero C space Lt)) st).
  by apply: set_expbuf_eq; apply/ffunP=> x; rewrite !ffunE big_geq.
rewrite /SUM_MU /bind /modify.
apply: (for_each_directions_eq I0) => [mu s lt_mu ->|s ->].
  exists (with_scratch (set_expbuf (part mu.+1)) st); last by [].
  rewrite /bind res_ok //; congr (_, _).
  apply: set_expbuf_eq; apply/ffunP=> x.
  by rewrite !ffunE big_nat_recr.
by apply: set_expbuf_eq; apply/ffunP=> x; rewrite !ffunE big_mkord.
Qed.

(** Perform S-type contractions. *)
Lemma saucer_contract_ok (n : nat) (st : Store) :
  size (S_body (scratch st)) = n -> size (S_loop (scratch st)) = n ->
  saucer_contract n st
  = (Ok tt,
     with_scratch (fun sc =>
       set_expbuf (saucer_sum n (S_body sc) (S_loop sc)) sc) st).
Proof.
move=> size_b size_l; rewrite /saucer_contract.
pose r mu := lat_trace (lat_mul (nth 0 (S_body (scratch st)) mu)
                                (nth 0 (S_loop (scratch st)) mu)).
set res := fun mu : nat => _.
have res_ok mu e : (mu < n)%N ->
    res mu (with_scratch (set_expbuf e) st)
    = (Ok (r mu), with_scratch (set_expbuf e) st).
  move=> lt_mu; rewrite /res /bind /read_S_body /read_S_loop /=.
  by rewrite !(vec_at_nth 0) ?size_b ?size_l.
rewrite (SUM_MU_ok res_ok).
congr (_, _); apply: set_expbuf_eq; apply/ffunP=> x; rewrite !ffunE.
by apply: eq_bigr => mu _; rewrite !ffunE.
Qed.

(** Recycle sub-expressions: the traced vectors are the images of the
    Saucer vectors the store holds, whatever these hold. *)
Lemma eye_setup_ok (n : nat) (st : Store) :
  allocated n (scratch st) ->
  eye_setup n st
  = (Ok tt,
     with_scratch (fun sc =>
       set_E_loop [seq lat_trace l | l <- S_loop sc]
         (set_E_body [seq lat_trace b | b <- S_body sc] sc)) st).
Proof.
case/allocatedP=> size_b size_l size_eb size_el.
pose tb mu := lat_trace (nth 0 (S_body (scratch st)) mu).
pose tl mu := lat_trace (nth 0 (S_loop (scratch st)) mu).
pose I k (s : Store) :=
  s = with_scratch (fun sc =>
        set_E_loop (mkseq tl k ++ drop k (E_loop sc))
          (set_E_body (mkseq tb k ++ drop k (E_body sc)) sc)) st.
have I0 : I 0%N st by rewrite /I /with_scratch /= !drop0 store_eta.
apply: (for_each_directions_eq I0) => [mu s lt_mu ->|s ->].
  exists (with_scratch (fun sc =>
        set_E_loop (mkseq tl mu.+1 ++ drop mu.+1 (E_loop sc))
          (set_E_body (mkseq tb mu.+1 ++ drop mu.+1 (E_body sc)) sc)) st);
    last by [].
  rewrite /bind /read_S_body /read_S_loop /assign_E_body /assign_E_loop.
  rewrite /bind /gets /lift /modify /=.
  rewrite (vec_at_nth 0) ?size_b // -/(tb mu) vec_set_next ?size_eb //=.
  by rewrite (vec_at_nth 0) ?size_l // -/(tl mu) vec_set_next ?size_el.
rewrite /with_scratch /= !drop_oversize ?size_eb ?size_el // !cats0.
have map_nth (T U : Type) (f : T -> U) (d : T) (v : seq T) :
    mkseq (fun i => f (nth d v i)) (size v) = [seq f y | y <- v].
  by rewrite /mkseq (map_comp f (nth d v)) -/(mkseq _ _) mkseq_nth.
have -> : mkseq tb n = [seq lat_trace b | b <- S_body (scratch st)].
  by rewrite -size_b map_nth.
have -> // : mkseq tl n = [seq lat_trace l | l <- S_loop (scratch st)].
by rewrite -size_l map_nth.
Qed.

(** Perform E-type contractions. *)
Lemma eye_contract_ok (n : nat) (st : Store) :
  size (E_body (scratch st)) = n -> size (E_loop (scratch st)) = n ->
  eye_contract n st
  = (Ok tt,
     with_scratch (fun sc =>
       set_expbuf (eye_sum n (E_body sc) (E_loop sc)) sc) st).
Proof.
move=> size_b size_l; rewrite /eye_contract.
pose r mu := cplx_mul (nth 0 (E_body (scratch st)) mu)
                      (nth 0 (E_loop (scratch st)) mu).
set res := fun mu : nat => _.
have res_ok mu e : (mu < n)%N ->
    res mu (with_scratch (set_expbuf e) st)
    = (Ok (r mu), with_scratch (set_expbuf e) st).
  move=> lt_mu; rewrite /res /bind /read_E_body /read_E_loop /=.
  by rewrite !(vec_at_nth 0) ?size_b ?size_l.
rewrite (SUM_MU_ok res_ok).
congr (_, _); apply: set_expbuf_eq; apply/ffunP=> x; rewrite !ffunE.
by apply: eq_bigr => mu _; rewrite !ffunE.
Qed.

End Phases.

(** ** Algebra of the contractions *)

Section Algebra.

Variable C : numClosedFieldType.
Variable space : finType.
Variable Lt : nat.
Variable g5 : SitePropagator C.
Variable gL : nat -> SitePropagator C.

Local Notation PropagatorField := (PropagatorField C space Lt).
Local Notation LatticeComplex := (LatticeComplex C space Lt).
Local Notation Site := (Site space Lt).

Lemma body_ofE (q1Snk : SitePropagator C) (Q2 Q3 : PropagatorField)
    (mu : nat) (x : Site) :
  body_of g5 gL q1Snk Q2 Q3 mu x
  = Q3 x *m g5 *m q1Snk *m adj (Q2 x) *m g5 *m gL mu.
Proof. by rewrite /body_of /MAKE_SE_BODY !ffunE. Qed.

Lemma loop_ofE (Q4 : PropagatorField) (mu : nat) (x : Site) :
  loop_of gL Q4 mu x = Q4 x *m gL mu.
Proof. by rewrite /loop_of /MAKE_SE_LOOP ffunE. Qed.

Lemma saucer_fieldE (n : nat) (q1Snk : SitePropagator C)
    (Q2 Q3 Q4 : PropagatorField) (x : Site) :
  saucer_field g5 gL n q1Snk Q2 Q3 Q4 x
  = saucer_site g5 gL n q1Snk Q2 Q3 Q4 x.
Proof.
rewrite /saucer_field /saucer_sum ffunE; apply: eq_bigr => mu _.
by rewrite !nth_mkseq // body_ofE loop_ofE.
Qed.

Lemma eye_fieldE (n : nat) (q1Snk : SitePropagator C)
    (Q2 Q3 Q4 : PropagatorField) (x : Site) :
  eye_field g5 gL n q1Snk Q2 Q3 Q4 x
  = eye_site g5 gL n q1Snk Q2 Q3 Q4 x.
Proof.
rewrite /eye_field /eye_sum ffunE; apply: eq_bigr => mu _.
rewrite /S_body_of /S_loop_of /mkseq -!map_comp.
by rewrite !(nth_map 0%N) ?size_iota // !nth_iota // add0n /= !ffunE.
Qed.

(** A sum along the loop is a sum over the directions below [n]. *)
Lemma sum_directions (n : nat) (F : nat -> C) :
  \sum_(mu <- directions n) F mu = \sum_(mu < n) F mu.
Proof. by rewrite /directions -{1}[n]subn0 -/(index_iota 0 n) big_mkord. Qed.

(** Projection on the time direction. *)
Lemma size_sliceSum (f : LatticeComplex) : size (sliceSum f) = Lt.
Proof. by rewrite /sliceSum size_map size_enum_ord. Qed.

Lemma nth_sliceSum (f : LatticeComplex) (t : 'I_Lt) :
  nth 0 (sliceSum f) t = \sum_(x : space) f (x, t).
Proof.
rewrite /sliceSum (nth_map t) ?size_enum_ord //.
by rewrite nth_ord_enum.
Qed.

Lemma eq_sliceSum (f g : LatticeComplex) : f =1 g -> sliceSum f = sliceSum g.
Proof. by move=> eq_fg; congr sliceSum; apply/ffunP. Qed.

Lemma sliceSum_scale (c : C) (f : LatticeComplex) :
  sliceSum [ffun x => c * f x] = [seq c * z | z <- sliceSum f].
Proof.
rewrite /sliceSum -map_comp; apply: eq_map => t /=.
by rewrite mulr_sumr; apply: eq_bigr => x _; rewrite ffunE.
Qed.

Lemma sliceSum_zero (f : LatticeComplex) :
  f =1 (fun=> 0) -> sliceSum f = nseq Lt 0.
Proof.
move=> f0; apply: (@eq_from_nth _ 0); rewrite size_sliceSum ?size_nseq //.
move=> t lt_t; rewrite (nth_sliceSum f (Ordinal lt_t)) nth_nseq lt_t.
by apply: big1 => x _; rewrite f0.
Qed.

(** The Saucer and the Eye fields are linear in [q4]. *)
Lemma saucer_site_scale (n : nat) (c : C) (q1Snk : SitePropagator C)
    (Q2 Q3 Q4 : PropagatorField) (x : Site) :
  saucer_site g5 gL n q1Snk Q2 Q3 (scale_field c Q4) x
  = c * saucer_site g5 gL n q1Snk Q2 Q3 Q4 x.
Proof.
rewrite /saucer_site mulr_sumr; apply: eq_bigr => mu _.
by rewrite ffunE -scalemxAl -scalemxAr mxtraceZ.
Qed.

Lemma eye_site_scale (n : nat) (c : C) (q1Snk : SitePropagator C)
    (Q2 Q3 Q4 : PropagatorField) (x : Site) :
  eye_site g5 gL n q1Snk Q2 Q3 (scale_field c Q4) x
  = c * eye_site g5 gL n q1Snk Q2 Q3 Q4 x.
Proof.
rewrite /eye_site mulr_sumr; apply: eq_bigr => mu _.
by rewrite ffunE -scalemxAl mxtraceZ mulrCA.
Qed.

Lemma saucer_site_zero (n : nat) (q1Snk : SitePropagator C)
    (Q2 Q3 : PropagatorField) (x : Site) :
  saucer_site g5 gL n q1Snk Q2 Q3 (zero_field C space Lt) x = 0.
Proof.
rewrite /saucer_site; apply: big1 => mu _.
by rewrite ffunE mul0mx mulmx0 mxtrace0.
Qed.

Lemma eye_site_zero (n : nat) (q1Snk : SitePropagator C)
    (Q2 Q3 : PropagatorField) (x : Site) :
  eye_site g5 gL n q1Snk Q2 Q3 (zero_field C space Lt) x = 0.
Proof.
rewrite /eye_site; apply: big1 => mu _.
by rewrite ffunE mul0mx mxtrace0 mulr0.
Qed.

Lemma results_of_scale (n : nat) (c : C) (q1Snk : SitePropagator C)
    (Q2 Q3 Q4 : PropagatorField) :
  results_of g5 gL n q1Snk Q2 Q3 (scale_field c Q4)
  = [:: MkResult "HW_S"
          [seq c * z | z <- sliceSum (saucer_field g5 gL n q1Snk Q2 Q3 Q4)];
        MkResult "HW_E"
          [seq c * z | z <- sliceSum (eye_field g5 gL n q1Snk Q2 Q3 Q4)]].
Proof.
rewrite /results_of -!sliceSum_scale.
congr [:: MkResult _ _; MkResult _ _]; apply: eq_sliceSum => x.
  by rewrite ffunE !saucer_fieldE saucer_site_scale.
by rewrite ffunE !eye_fieldE eye_site_scale.
Qed.

Lemma results_of_zero (n : nat) (q1Snk : SitePropagator C)
    (Q2 Q3 : PropagatorField) :
  results_of g5 gL n q1Snk Q2 Q3 (zero_field C space Lt)
  = [:: MkResult "HW_S" (nseq Lt 0); MkResult "HW_E" (nseq Lt 0)].
Proof.
rewrite /results_of; congr [:: MkResult _ _; MkResult _ _].
  by apply: sliceSum_zero => x; rewrite saucer_fieldE saucer_site_zero.
by apply: sliceSum_zero => x; rewrite eye_fieldE eye_site_zero.
Qed.

End Algebra.

(** ** A whole execution *)

Section Execution.

Variable C : numClosedFieldType.
Variable space : finType.
Variable Lt : nat.
Variable g5 : SitePropagator C.
Variable gL : nat -> SitePropagator C.
Variable RESULT_FILE_NAME : string -> string.

Local Notation Store := (Store C space Lt).
Local Notation PropagatorField := (PropagatorField C space Lt).
Local Notation execute := (execute g5 gL RESULT_FILE_NAME).

(** With its inputs resolved, the sink time inside [q1] and the scratch
    vectors allocated, [execute] returns and ends in [final_store]. *)
Lemma execute_ok (par : WeakHamiltonianPar) (st : Store)
    (Q1 : SlicedPropagator C) (Q2 Q3 Q4 : PropagatorField) :
  lookup (q1 par) (objects st) = Some (Sliced Q1) ->
  lookup (q2 par) (objects st) = Some (Field Q2) ->
  lookup (q3 par) (objects st) = Some (Field Q3) ->
  lookup (q4 par) (objects st) = Some (Field Q4) ->
  (tSnk par < size Q1)%N ->
  allocated (Nd st) (scratch st) ->
  execute par st
  = (Ok tt,
     final_store g5 gL (RESULT_FILE_NAME (output par))
       (nth 0 Q1 (tSnk par)) Q2 Q3 Q4 st).
Proof.
move=> get1 get2 get3 get4 lt_t /allocatedP[size_b size_l size_eb size_el].
rewrite /execute /bind /openResultWriter /envGetSliced /envGetField /=.
rewrite get1 get2 get3 get4 /getNd /gets /lift (vec_at_nth 0) //.
rewrite saucer_setup_ok //.
rewrite (@saucer_contract_ok _ _ _ (Nd st)); try by rewrite /= size_mkseq.
rewrite /MAKE_DIAG /bind /gets /ret /vec_set /=.
rewrite (@eye_setup_ok _ _ _ (Nd st));
  try by apply/allocatedP; split; rewrite /= ?size_mkseq.
rewrite (@eye_contract_ok _ _ _ (Nd st));
  try by rewrite /= size_map size_mkseq.
by rewrite /write /modify /final_store /results_of /TensorRemove /= !map_id.
Qed.

(** No phase touches the environment's objects, its dimension or the
    result file. *)
Lemma quiet_from_refl (st : Store) : quiet_from st st.
Proof. by split. Qed.

Lemma quiet_from_trans (s1 s2 s3 : Store) :
  quiet_from s1 s2 -> quiet_from s2 s3 -> quiet_from s1 s3.
Proof. by case=> o1 n1 l1 [o2 n2 l2]; split; rewrite ?o2 ?n2 ?l2. Qed.

Lemma assign_quiet (A : Type) (v : Outcome A)
    (set : A -> Scratch C space Lt -> Scratch C space Lt) (st s : Store) :
  quiet_from st s ->
  quiet_from st (bind (lift v) (fun v' => modify (with_scratch (set v'))) s).2.
Proof. by rewrite /bind /lift /modify; case: v. Qed.

Lemma saucer_setup_quiet (n : nat) (q1Snk : SitePropagator C)
    (Q2 Q3 Q4 : PropagatorField) (st : Store) :
  quiet_from st (saucer_setup g5 gL n q1Snk Q2 Q3 Q4 st).2.
Proof.
apply: for_each_keeps (quiet_from_refl st) => mu s quiet_s.
rewrite /bind /assign_S_body /assign_S_loop /bind /gets /lift /modify /=.
by do 2![case: vec_set => [?|?] //=].
Qed.

Lemma eye_setup_quiet (n : nat) (st : Store) :
  quiet_from st (eye_setup n st).2.
Proof.
apply: for_each_keeps (quiet_from_refl st) => mu s quiet_s.
rewrite /bind /read_S_body /read_S_loop /assign_E_body /assign_E_loop.
rewrite /bind /gets /lift /modify /=.
by do 2![case: vec_at => [?|?] //=; case: vec_set => [?|?] //=].
Qed.

Lemma SUM_MU_quiet (n : nat)
    (res : nat -> Exec Store (LatticeComplex C space Lt)) (st : Store) :
  (forall mu s, (res mu s).2 = s) ->
  quiet_from st (SUM_MU n res st).2.
Proof.
move=> res_pure; rewrite /SUM_MU /bind /modify.
apply: for_each_keeps => [mu s quiet_s|]; last by [].
rewrite /bind; case res_mu: (res mu s) => [[r|e] s'] /=.
  by have := res_pure mu s; rewrite res_mu /= => ->.
by have := res_pure mu s; rewrite res_mu /= => ->.
Qed.

Lemma saucer_contract_quiet (n : nat) (st : Store) :
  quiet_from st (saucer_contract n st).2.
Proof.
apply: SUM_MU_quiet => mu s; rewrite /bind /read_S_body /read_S_loop /=.
by do 2![case: vec_at => [?|?] //=].
Qed.

Lemma eye_contract_quiet (n : nat) (st : Store) :
  quiet_from st (eye_contract n st).2.
Proof.
apply: SUM_MU_quiet => mu s; rewrite /bind /read_E_body /read_E_loop /=.
by do 2![case: vec_at => [?|?] //=].
Qed.

(** The two ways an execution can end: it returns, and one write has put
    the two records, named HW_S and HW_E in that order, behind the opened
    file; or it throws, and only the file was opened.  Either way the
    objects and the dimension are as they were. *)
Lemma execute_cases (par : WeakHamiltonianPar) (st : Store) :
  let file := RESULT_FILE_NAME (output par) in
  let: (o, s) := execute par st in
  [/\ objects s = objects st, Nd s = Nd st
    & match o with
      | Ok _ => exists cS,
          io s = rcons (rcons (io st) (Open file))
                   (Write file "HW_Eye"
                      [:: MkResult "HW_S" cS;
                          MkResult "HW_E" (sliceSum (expbuf (scratch s)))])
      | Throw _ => io s = rcons (io st) (Open file)
      end].
Proof.
rewrite /execute /bind /openResultWriter /envGetSliced /envGetField /=.
set st1 := with_io _ st.
case: (lookup (q1 par) _) => [[Q1|?]|] //=.
case: (lookup (q2 par) _) => [[?|Q2]|] //=.
case: (lookup (q3 par) _) => [[?|Q3]|] //=.
case: (lookup (q4 par) _) => [[?|Q4]|] //=.
rewrite /lift; case: vec_at => [q1Snk|?] //=.
case run1: (saucer_setup _ _ _ _ _ _ _ _) => [[[]|e] s1];
  have := saucer_setup_quiet (Nd st) q1Snk Q2 Q3 Q4 st1;
  rewrite run1 /= => quiet1; last by case: quiet1 => -> -> ->.
case run2: (saucer_contract _ _) => [[[]|e] s2];
  have := quiet_from_trans quiet1 (saucer_contract_quiet (Nd st) s1);
  rewrite run2 /= => quiet2; last by case: quiet2 => -> -> ->.
rewrite /MAKE_DIAG /bind /gets /ret /=.
case run3: (eye_setup _ _) => [[[]|e] s3];
  have := quiet_from_trans quiet2 (eye_setup_quiet (Nd st) s2);
  rewrite run3 /= => quiet3; last by case: quiet3 => -> -> ->.
case run4: (eye_contract _ _) => [[[]|e] s4];
  have := quiet_from_trans quiet3 (eye_contract_quiet (Nd st) s3);
  rewrite run4 /= => quiet4; last by case: quiet4 => -> -> ->.
case: quiet4 => -> -> ->; split=> //.
by eexists; rewrite /TensorRemove !map_id.
Qed.

(** An input that does not resolve stops the execution at its [envGet]:
    the file is open, nothing else has happened. *)
Lemma execute_unresolved (par : WeakHamiltonianPar) (st : Store) :
  ~~ resolvable par st ->
  execute par st
  = (Throw UnresolvedInputError,
     with_io (rcons^~ (Open (RESULT_FILE_NAME (output par)))) st).
Proof.
rewrite /resolvable /execute /bind /openResultWriter /=.
rewrite /envGetSliced /envGetField /=.
case: (lookup (q1 par) _) => [[Q1|?]|] //=.
case: (lookup (q2 par) _) => [[?|Q2]|] //=.
case: (lookup (q3 par) _) => [[?|Q3]|] //=.
by case: (lookup (q4 par) _) => [[?|Q4]|].
Qed.

End Execution.

(** ** The properties of the module *)

Section Properties.

Variable C : numClosedFieldType.
Variable space : finType.
Variable Lt : nat.
Variable g5 : SitePropagator C.
Variable gL : nat -> SitePropagator C.
Variable RESULT_FILE_NAME : string -> string.

Local Notation Store := (Store C space Lt).
Local Notation PropagatorField := (PropagatorField C space Lt).
Local Notation LatticeComplex := (LatticeComplex C space Lt).
Local Notation Site := (Site space Lt).
Local Notation execute := (execute g5 gL RESULT_FILE_NAME).

Lemma execute_ready (par : WeakHamiltonianPar) (st : Store)
    (Q1 : SlicedPropagator C) (Q2 Q3 Q4 : PropagatorField) :
  ready par st Q1 Q2 Q3 Q4 ->
  execute par st
  = (Ok tt,
     final_store g5 gL (RESULT_FILE_NAME (output par))
       (nth 0 Q1 (tSnk par)) Q2 Q3 Q4 st).
Proof. by case=> -[get1 get2 get3 get4] lt_t alloc; apply: execute_ok. Qed.

(** C1. After an execution, for every direction [mu] below the lattice's
    dimension and every site [x], the Saucer body [S_body[mu]] is
    [q3 * g5 * q1Snk * adj(q2) * g5 * gL mu] at [x], with the one value
    [q1Snk = q1[tSnk]] at every site, and the Saucer loop [S_loop[mu]] is
    [q4 * gL mu] at [x]; the Saucer correlator is the projection of the sum
    over the directions of [trace(S_body[mu] * S_loop[mu])]. *)
Theorem saucer_body_and_loop (par : WeakHamiltonianPar) (st : Store)
    (Q1 : SlicedPropagator C) (Q2 Q3 Q4 : PropagatorField) :
  ready par st Q1 Q2 Q3 Q4 ->
  let q1Snk := nth 0 Q1 (tSnk par) in
  let file := RESULT_FILE_NAME (output par) in
  exists st' cE,
    [/\ execute par st = (Ok tt, st'),
        forall (mu : nat) (x : Site), (mu < Nd st)%N ->
          nth 0 (S_body (scratch st')) mu x
          = Q3 x *m g5 *m q1Snk *m adj (Q2 x) *m g5 *m gL mu,
        forall (mu : nat) (x : Site), (mu < Nd st)%N ->
          nth 0 (S_loop (scratch st')) mu x = Q4 x *m gL mu
      & io st'
        = rcons (rcons (io st) (Open file))
            (Write file "HW_Eye"
               [:: MkResult "HW_S"
                     (sliceSum
                        [ffun x => \sum_(mu < Nd st)
                           \tr (nth 0 (S_body (scratch st')) mu x
                                *m nth 0 (S_loop (scratch st')) mu x)]);
                   MkResult "HW_E" cE])].
Proof.
move=> rdy q1Snk file; rewrite (execute_ready rdy).
eexists; eexists; split; first by [].
- by move=> mu x lt_mu; rewrite /= nth_mkseq // body_ofE.
- by move=> mu x lt_mu; rewrite /= nth_mkseq // loop_ofE.
by [].
Qed.

(** C2. The Eye vectors are made from the Saucer vectors the store holds:
    whatever these hold, the recycling loop leaves in [E_body] and
    [E_loop] their traces, field by field, and the Eye sum is taken over
    these two vectors; neither reads an input.  After an execution, [E_body[mu]] and [E_loop[mu]] are at every site the trace of
    [S_body[mu]] and [S_loop[mu]], which is the trace of the product
    computed from the inputs. *)
Theorem eye_recycles_saucer (par : WeakHamiltonianPar) (st : Store)
    (Q1 : SlicedPropagator C) (Q2 Q3 Q4 : PropagatorField) :
  ready par st Q1 Q2 Q3 Q4 ->
  let q1Snk := nth 0 Q1 (tSnk par) in
  (forall (n : nat) (s : Store), allocated n (scratch s) ->
     eye_setup n s
     = (Ok tt,
        with_scratch (fun sc =>
          set_E_loop [seq lat_trace l | l <- S_loop sc]
            (set_E_body [seq lat_trace b | b <- S_body sc] sc)) s)
     /\ eye_contract n s
        = (Ok tt,
           with_scratch (fun sc =>
             set_expbuf (eye_sum n (E_body sc) (E_loop sc)) sc) s))
  /\ exists st',
    [/\ execute par st = (Ok tt, st'),
        forall (mu : nat) (x : Site), (mu < Nd st)%N ->
          nth 0 (E_body (scratch st')) mu x
          = \tr (nth 0 (S_body (scratch st')) mu x),
        forall (mu : nat) (x : Site), (mu < Nd st)%N ->
          nth 0 (E_loop (scratch st')) mu x
          = \tr (nth 0 (S_loop (scratch st')) mu x),
        forall (mu : nat) (x : Site), (mu < Nd st)%N ->
          nth 0 (E_body (scratch st')) mu x
          = \tr (Q3 x *m g5 *m q1Snk *m adj (Q2 x) *m g5 *m gL mu)
      & forall (mu : nat) (x : Site), (mu < Nd st)%N ->
          nth 0 (E_loop (scratch st')) mu x = \tr (Q4 x *m gL mu)].
Proof.
move=> rdy q1Snk; split.
  move=> n s alloc; split; first exact: eye_setup_ok.
  by case/allocatedP: alloc => _ _ size_b size_l; apply: eye_contract_ok.
rewrite (execute_ready rdy); eexists; split; first by [].
- by move=> mu x lt_mu; rewrite /= (nth_map 0) ?size_mkseq // ffunE.
- by move=> mu x lt_mu; rewrite /= (nth_map 0) ?size_mkseq // ffunE.
- move=> mu x lt_mu; rewrite /= (nth_map 0) ?size_mkseq // ffunE.
  by rewrite nth_mkseq // body_ofE.
move=> mu x lt_mu; rewrite /= (nth_map 0) ?size_mkseq // ffunE.
by rewrite nth_mkseq // loop_ofE.
Qed.

(** C3. The loop visits each direction below [D] once and no other, and
    for each diagram the complex field that is projected is the sum, over
    exactly these directions, of the per-direction term: the Saucer
    correlator projects the sum of [trace(S_body[mu] * S_loop[mu])], the
    Eye correlator the sum of [E_body[mu] * E_loop[mu]]. *)
Theorem one_term_per_direction (par : WeakHamiltonianPar) (st : Store)
    (Q1 : SlicedPropagator C) (Q2 Q3 Q4 : PropagatorField) :
  ready par st Q1 Q2 Q3 Q4 ->
  let D := Nd st in
  let file := RESULT_FILE_NAME (output par) in
  [/\ size (directions D) = D,
      forall mu : nat, count_mem mu (directions D) = (mu < D)%N
    & exists st',
        execute par st = (Ok tt, st')
        /\ io st'
           = rcons (rcons (io st) (Open file))
               (Write file "HW_Eye"
                  [:: MkResult "HW_S"
                        (sliceSum
                           [ffun x => \sum_(mu <- directions D)
                              \tr (nth 0 (S_body (scratch st')) mu x
                                   *m nth 0 (S_loop (scratch st')) mu x)]);
                      MkResult "HW_E"
                        (sliceSum
                           [ffun x => \sum_(mu <- directions D)
                              nth 0 (E_body (scratch st')) mu x
                              * nth 0 (E_loop (scratch st')) mu x])])].
Proof.
move=> rdy D file; split; first by rewrite size_iota.
  by move=> mu; rewrite count_uniq_mem ?iota_uniq // mem_iota add0n.
rewrite (execute_ready rdy); eexists; split; first by [].
rewrite /= /results_of /saucer_field /eye_field /saucer_sum /eye_sum.
congr (rcons _ (Write _ _ [:: MkResult _ _; MkResult _ _]));
  by apply: eq_sliceSum => x; rewrite !ffunE sum_directions.
Qed.

(** C4. Each of the two correlators an execution writes has one entry per
    time of the lattice; on a lattice of temporal extent 1 each has one
    entry. *)
Theorem correlator_length (par : WeakHamiltonianPar) (st : Store)
    (Q1 : SlicedPropagator C) (Q2 Q3 Q4 : PropagatorField) :
  ready par st Q1 Q2 Q3 Q4 ->
  let file := RESULT_FILE_NAME (output par) in
  exists st' cS cE,
    [/\ execute par st = (Ok tt, st'),
        io st'
        = rcons (rcons (io st) (Open file))
            (Write file "HW_Eye"
               [:: MkResult "HW_S" cS; MkResult "HW_E" cE]),
        size cS = Lt /\ size cE = Lt
      & Lt = 1%N -> size cS = 1%N /\ size cE = 1%N].
Proof.
move=> rdy file; rewrite (execute_ready rdy).
do 3!eexists; split; first by []; first by [].
  by rewrite !size_sliceSum.
by rewrite !size_sliceSum.
Qed.

(** C5. The projection of a complex field has one entry per time; the
    entry at time [t] is the sum of the field over every spatial
    coordinate at [t], that is over the sites whose time is [t]; and
    [MAKE_DIAG] puts the projection of [expbuf] in the buffer and in the
    record. *)
Theorem projection_sums_space (f : LatticeComplex) (n : string)
    (st : Store) :
  [/\ size (sliceSum f) = Lt,
      forall t : 'I_Lt, nth 0 (sliceSum f) t = \sum_(x : space) f (x, t),
      forall t : 'I_Lt,
        nth 0 (sliceSum f) t = \sum_(s : Site | s.2 == t) f s
    & MAKE_DIAG n st
      = (Ok (sliceSum (expbuf (scratch st)),
             MkResult n (sliceSum (expbuf (scratch st)))), st)].
Proof.
split; first exact: size_sliceSum.
- exact: nth_sliceSum.
- move=> t; rewrite nth_sliceSum.
  have -> : \sum_(s : Site | s.2 == t) f s
            = \sum_(s : Site | s.2 == t) f (s.1, s.2).
    by apply: eq_bigr; case.
  rewrite -(pair_big xpredT (pred1 t) (fun x u => f (x, u))) /=.
  by apply: eq_bigr => x _; rewrite big_pred1_eq.
by rewrite /MAKE_DIAG /bind /gets /ret /TensorRemove map_id.
Qed.

(** C6. An execution that returns has written once, as its last event and
    behind the opening of the file: one payload of two records, named HW_S
    and HW_E in this order, the second holding the projection of the Eye
    field the store ends with. *)
Theorem two_results_one_write (par : WeakHamiltonianPar) (st st' : Store) :
  execute par st = (Ok tt, st') ->
  let file := RESULT_FILE_NAME (output par) in
  exists cS cE,
    [/\ io st'
        = rcons (rcons (io st) (Open file))
            (Write file "HW_Eye"
               [:: MkResult "HW_S" cS; MkResult "HW_E" cE]),
        cE = sliceSum (expbuf (scratch st')),
        count (@is_write C) (io st') = (count (@is_write C) (io st)).+1
      & emitted (io st')
        = emitted (io st) ++ [:: MkResult "HW_S" cS; MkResult "HW_E" cE]].
Proof.
move=> run file; have := execute_cases g5 gL RESULT_FILE_NAME par st.
rewrite run /= => -[_ _ [cS io_st']]; exists cS; eexists.
split; [exact: io_st' | by [] | |].
  by rewrite io_st' -!cats1 !count_cat /= !addn0 addn1.
by rewrite io_st' /emitted -!cats1 !map_cat !flatten_cat /= !cats0.
Qed.



(** C8. When one of the four names does not resolve to an object of its
    kind, the execution throws [UnresolvedInputError] with the scratch
    buffers untouched and no record written.  And whatever the store, an
    execution writes either no record or both, the Saucer one then the Eye
    one. *)
Theorem unresolved_input_writes_nothing (par : WeakHamiltonianPar)
    (st : Store) :
  ~~ resolvable par st ->
  [/\ (execute par st).1 = Throw UnresolvedInputError,
      scratch (execute par st).2 = scratch st,
      emitted (io (execute par st).2) = emitted (io st)
    & forall st0 : Store,
        emitted (io (execute par st0).2) = emitted (io st0)
        \/ exists cS cE,
             emitted (io (execute par st0).2)
             = emitted (io st0)
               ++ [:: MkResult "HW_S" cS; MkResult "HW_E" cE]].
Proof.
move=> unres; rewrite (execute_unresolved g5 gL RESULT_FILE_NAME unres) /=.
split=> // [|st0].
  by rewrite /emitted -cats1 map_cat flatten_cat /= cats0.
have := execute_cases g5 gL RESULT_FILE_NAME par st0.
case: (execute par st0) => [[[]|e] s] /= [_ _].
  case=> cS ->; right; exists cS; eexists.
  by rewrite /emitted -!cats1 !map_cat !flatten_cat /= !cats0.
by move=> ->; left; rewrite /emitted -cats1 map_cat flatten_cat /= cats0.
Qed.

(** X11. Over exact complex arithmetic, the arithmetic of this model:
    with [q4] replaced by [c * q4] and the other inputs kept, every entry
    of the Saucer and of the Eye correlator is multiplied by [c]; and when
    [q2], [q3] and [q4] are zero fields both correlators are zero at every
    time.  Rounding of the machine's floating point is outside the
    statement. *)
Theorem linear_in_q4 (par : WeakHamiltonianPar) (st stc : Store)
    (Q1 : SlicedPropagator C) (Q2 Q3 Q4 : PropagatorField) (c : C) :
  ready par st Q1 Q2 Q3 Q4 ->
  ready par stc Q1 Q2 Q3 (scale_field c Q4) ->
  Nd stc = Nd st ->
  let file := RESULT_FILE_NAME (output par) in
  exists st' stc' cS cE,
    [/\ execute par st = (Ok tt, st'),
        io st'
        = rcons (rcons (io st) (Open file))
            (Write file "HW_Eye"
               [:: MkResult "HW_S" cS; MkResult "HW_E" cE]),
        execute par stc = (Ok tt, stc'),
        io stc'
        = rcons (rcons (io stc) (Open file))
            (Write file "HW_Eye"
               [:: MkResult "HW_S" [seq c * z | z <- cS];
                   MkResult "HW_E" [seq c * z | z <- cE]])
      & Q2 = zero_field C space Lt -> Q3 = zero_field C space Lt ->
        Q4 = zero_field C space Lt ->
        cS = nseq Lt 0 /\ cE = nseq Lt 0].
Proof.
move=> rdy rdyc same_nd file.
rewrite (execute_ready rdy) (execute_ready rdyc).
do 4!eexists; split; [by [] | by [] | by [] | |].
  by rewrite /= same_nd results_of_scale.
move=> _ _ q4_zero.
have := results_of_zero g5 gL (Nd st) (nth 0 Q1 (tSnk par)) Q2 Q3.
by rewrite -q4_zero /results_of => -[-> ->].
Qed.

(** C10. Whatever its outcome, an execution leaves the environment's
    objects, hence the four inputs, and the lattice's dimension as they
    were, and only appends to the result file; the module declares its four
    quark names as inputs and no output. *)
Theorem inputs_read_only (par : WeakHamiltonianPar) (st : Store) :
  [/\ objects (execute par st).2 = objects st,
      Nd (execute par st).2 = Nd st,
      exists evs, io (execute par st).2 = io st ++ evs,
      getInput par = [:: q1 par; q2 par; q3 par; q4 par]
    & getOutput par = [::]].
Proof.
have := execute_cases g5 gL RESULT_FILE_NAME par st.
case: (execute par st) => [[[]|e] s] /= [same_objects same_nd io_s]; split=> //.
  by case: io_s => cS ->; eexists; rewrite -!cats1 -catA.
by rewrite io_s -cats1; eexists.
Qed.

End Properties.

(** ** The properties on the example lattice *)

Lemma saucer_body_and_loop_witness :
  exists st',
    execute Example.g5 Example.gL Example.RESULT_FILE_NAME Example.par
      (Example.store4 Example.unit_field) = (Ok tt, st')
    /\ forall x, nth 0 (S_loop (scratch st')) 0 x
                 = Example.unit_field x *m Example.gL 0.
Proof.
have rdy : ready Example.par (Example.store4 Example.unit_field)
             Example.sink Example.unit_field Example.unit_field
             Example.unit_field by split.
have [st' [cE [run _ loops _]]] :=
  saucer_body_and_loop Example.g5 Example.gL Example.RESULT_FILE_NAME rdy.
exists st'; split; [exact: run | move=> x; exact: (loops 0%N x isT)].
Defined.

Lemma eye_recycles_saucer_witness :
  exists st',
    execute Example.g5 Example.gL Example.RESULT_FILE_NAME Example.par
      (Example.store4 Example.unit_field) = (Ok tt, st')
    /\ forall x, nth 0 (E_loop (scratch st')) 3 x
                 = \tr (nth 0 (S_loop (scratch st')) 3 x).
Proof.
have rdy : ready Example.par (Example.store4 Example.unit_field)
             Example.sink Example.unit_field Example.unit_field
             Example.unit_field by split.
have [_ [st' [run _ loops _ _]]] :=
  eye_recycles_saucer Example.g5 Example.gL Example.RESULT_FILE_NAME rdy.
exists st'; split; [exact: run | move=> x; exact: (loops 3%N x isT)].
Defined.

Lemma one_term_per_direction_witness :
  size (directions (Nd (Example.store4 Example.unit_field))) = 4%N
  /\ count_mem 2%N (directions (Nd (Example.store4 Example.unit_field)))
     = 1%N.
Proof.
have rdy : ready Example.par (Example.store4 Example.unit_field)
             Example.sink Example.unit_field Example.unit_field
             Example.unit_field by split.
have [size_dirs once _] :=
  one_term_per_direction Example.g5 Example.gL Example.RESULT_FILE_NAME rdy.
by split; [exact: size_dirs | exact: once].
Defined.

Lemma correlator_length_witness :
  exists st' cS cE,
    [/\ execute Example.g5 Example.gL Example.RESULT_FILE_NAME Example.par
          (Example.store4 Example.unit_field) = (Ok tt, st'),
        emitted (io st') = [:: MkResult "HW_S" cS; MkResult "HW_E" cE],
        size cS = 2%N & size cE = 2%N].
Proof.
have rdy : ready Example.par (Example.store4 Example.unit_field)
             Example.sink Example.unit_field Example.unit_field
             Example.unit_field by split.
have [st' [cS [cE [run io_st' [size_S size_E] _]]]] :=
  correlator_length Example.g5 Example.gL Example.RESULT_FILE_NAME rdy.
exists st', cS, cE; split;
  [exact: run | rewrite io_st'; reflexivity | exact: size_S | exact: size_E].
Defined.

Lemma two_results_one_write_witness :
  exists st' cS cE,
    execute Example.g5 Example.gL Example.RESULT_FILE_NAME Example.par
      (Example.store4 Example.unit_field) = (Ok tt, st')
    /\ io st'
       = [:: Open "hw_eye.xml";
             Write "hw_eye.xml" "HW_Eye"
               [:: MkResult "HW_S" cS; MkResult "HW_E" cE]].
Proof.
have rdy : ready Example.par (Example.store4 Example.unit_field)
             Example.sink Example.unit_field Example.unit_field
             Example.unit_field by split.
have run := execute_ready Example.g5 Example.gL Example.RESULT_FILE_NAME rdy.
have [cS [cE [io_st' _ _ _]]] := two_results_one_write run.
by eexists; exists cS, cE; split; [exact: run | exact: io_st'].
Defined.


Lemma unresolved_input_writes_nothing_witness :
  (execute Example.g5 Example.gL Example.RESULT_FILE_NAME
     Example.par Example.store_missing).1 = Throw UnresolvedInputError
  /\ emitted
       (io (execute Example.g5 Example.gL Example.RESULT_FILE_NAME
              Example.par Example.store_missing).2) = [::].
Proof.
have unres : ~~ resolvable Example.par Example.store_missing by [].
have [thrown _ nothing _] :=
  unresolved_input_writes_nothing Example.g5 Example.gL
    Example.RESULT_FILE_NAME unres.
by split; [exact: thrown | exact: nothing].
Defined.

Lemma linear_in_q4_witness :
  exists st' stc' cS cE,
    [/\ execute Example.g5 Example.gL Example.RESULT_FILE_NAME Example.par
          (Example.store4 Example.unit_field) = (Ok tt, st'),
        emitted (io st') = [:: MkResult "HW_S" cS; MkResult "HW_E" cE],
        execute Example.g5 Example.gL Example.RESULT_FILE_NAME Example.par
          (Example.store4 (scale_field 2 Example.unit_field))
        = (Ok tt, stc')
      & emitted (io stc')
        = [:: MkResult "HW_S" [seq 2 * z | z <- cS];
              MkResult "HW_E" [seq 2 * z | z <- cE]]].
Proof.
have rdy : ready Example.par (Example.store4 Example.unit_field)
             Example.sink Example.unit_field Example.unit_field
             Example.unit_field by split.
have rdyc : ready Example.par
              (Example.store4 (scale_field 2 Example.unit_field))
              Example.sink Example.unit_field Example.unit_field
              (scale_field 2 Example.unit_field) by split.
have [st' [stc' [cS [cE [run io_st' runc io_stc' _]]]]] :=
  linear_in_q4 Example.g5 Example.gL Example.RESULT_FILE_NAME
    rdy rdyc (erefl _).
exists st', stc', cS, cE; split;
  [ exact: run | rewrite io_st'; reflexivity
  | exact: runc | rewrite io_stc'; reflexivity ].
Defined.

(** ** More on loops *)

Section MoreLoops.

Variable St : Type.

(** A change of the store that every iteration commutes with commutes
    with the loop. *)
Lemma for_each_natural (h : St -> St) (body : nat -> Exec St unit)
    (s : seq nat) (st : St) :
  (forall mu s0, body mu (h s0) = ((body mu s0).1, h (body mu s0).2)) ->
  for_each s body (h st)
  = ((for_each s body st).1, h (for_each s body st).2).
Proof.
move=> nat_body; elim: s st => [|mu s IHs] st //=.
rewrite /bind nat_body.
by case: (body mu st) => [[[]|e] s1] /=.
Qed.

End MoreLoops.

Section MoreVectors.

Variable T : Type.

Lemma vec_at_out (v : seq T) (i : nat) :
  (size v <= i)%N -> vec_at v i = Throw Undefined.
Proof. by move=> le_vi; rewrite /vec_at drop_oversize. Qed.

Lemma vec_set_okE (v v' : seq T) (i : nat) (x : T) :
  vec_set v i x = Ok v' -> (i < size v)%N /\ size v' = size v.
Proof.
rewrite /vec_set; case: ifP => // lt_i [<-]; split=> //.
by rewrite size_set_nth; apply/maxn_idPr.
Qed.

(** The entries below [n] of a vector that starts with [n] known ones. *)
Lemma nth_mkseq_cat (x0 : T) (f : nat -> T) (n : nat) (rest : seq T)
    (i : nat) :
  (i < n)%N -> nth x0 (mkseq f n ++ rest) i = f i.
Proof. by move=> lt_i; rewrite nth_cat size_mkseq lt_i nth_mkseq. Qed.

End MoreVectors.

(** ** More on the phases *)

Section MorePhases.

Variable C : numClosedFieldType.
Variable space : finType.
Variable Lt : nat.
Variable g5 : SitePropagator C.
Variable gL : nat -> SitePropagator C.

Local Notation Store := (Store C space Lt).
Local Notation Scratch := (Scratch C space Lt).
Local Notation PropagatorField := (PropagatorField C space Lt).
Local Notation LatticeComplex := (LatticeComplex C space Lt).

Lemma bind_keeps (A B : Type) (P : Store -> Prop) (m : Exec Store A)
    (k : A -> Exec Store B) (s : Store) :
  P (m s).2 -> (forall a s', P s' -> P (k a s').2) -> P (bind m k s).2.
Proof. by rewrite /bind; case: (m s) => [[a|e] s'] //= Ps' keep; apply: keep. Qed.

Lemma bind_natural (A B : Type) (h : Store -> Store) (m : Exec Store A)
    (k : A -> Exec Store B) (s : Store) :
  m (h s) = ((m s).1, h (m s).2) ->
  (forall a s', k a (h s') = ((k a s').1, h (k a s').2)) ->
  bind m k (h s) = ((bind m k s).1, h (bind m k s).2).
Proof.
by rewrite /bind => -> nat_k; case: (m s) => [[a|e] s'] /=.
Qed.

(** *** What the phases keep *)

Lemma steady_refl (st : Store) : steady st st.
Proof. by split. Qed.

Lemma steady_trans (s1 s2 s3 : Store) :
  steady s1 s2 -> steady s2 s3 -> steady s1 s3.
Proof.
case=> t1 t2 b l [eb el] [t1' t2' b' l' [eb' el']].
by split; [rewrite t1' | rewrite t2' | rewrite b' | rewrite l' |
           rewrite eb' el'].
Qed.

Lemma assign_S_body_steady (st s : Store) (mu : nat) (val : PropagatorField) :
  steady st s -> steady st (assign_S_body mu val s).2.
Proof.
rewrite /assign_S_body /bind /gets /lift /modify /=.
case set_mu: vec_set => [v'|e] //=; have [_ size_v'] := vec_set_okE set_mu.
by case=> t1 t2 b l [eb el]; split; rewrite /= ?size_v'.
Qed.

Lemma assign_S_loop_steady (st s : Store) (mu : nat) (val : PropagatorField) :
  steady st s -> steady st (assign_S_loop mu val s).2.
Proof.
rewrite /assign_S_loop /bind /gets /lift /modify /=.
case set_mu: vec_set => [v'|e] //=; have [_ size_v'] := vec_set_okE set_mu.
by case=> t1 t2 b l [eb el]; split; rewrite /= ?size_v'.
Qed.

Lemma assign_E_body_steady (st s : Store) (mu : nat) (val : LatticeComplex) :
  steady st s -> steady st (assign_E_body mu val s).2.
Proof.
rewrite /assign_E_body /bind /gets /lift /modify /=.
case set_mu: vec_set => [v'|e] //=; have [_ size_v'] := vec_set_okE set_mu.
by case=> t1 t2 b l [eb el]; split; rewrite /= ?size_v'.
Qed.

Lemma assign_E_loop_steady (st s : Store) (mu : nat) (val : LatticeComplex) :
  steady st s -> steady st (assign_E_loop mu val s).2.
Proof.
rewrite /assign_E_loop /bind /gets /lift /modify /=.
case set_mu: vec_set => [v'|e] //=; have [_ size_v'] := vec_set_okE set_mu.
by case=> t1 t2 b l [eb el]; split; rewrite /= ?size_v'.
Qed.

Lemma saucer_setup_steady (n : nat) (q1Snk : SitePropagator C)
    (Q2 Q3 Q4 : PropagatorField) (st : Store) :
  steady st (saucer_setup g5 gL n q1Snk Q2 Q3 Q4 st).2.
Proof.
apply: for_each_keeps (steady_refl st) => mu s steady_s.
apply: bind_keeps; first exact: assign_S_body_steady.
by move=> _ s'; apply: assign_S_loop_steady.
Qed.

Lemma eye_setup_steady (n : nat) (st : Store) :
  steady st (eye_setup n st).2.
Proof.
apply: for_each_keeps (steady_refl st) => mu s steady_s.
apply: bind_keeps => // b s1 steady_s1.
apply: bind_keeps; first exact: assign_E_body_steady.
move=> _ s2 steady_s2; apply: bind_keeps => // l s3.
exact: assign_E_loop_steady.
Qed.

Lemma SUM_MU_steady (n : nat)
    (res : nat -> Exec Store LatticeComplex) (st : Store) :
  (forall mu s, (res mu s).2 = s) ->
  steady st (SUM_MU n res st).2.
Proof.
move=> res_pure; rewrite /SUM_MU /bind /modify.
apply: for_each_keeps => [mu s steady_s|]; last by [].
by apply: bind_keeps; rewrite ?res_pure.
Qed.

Lemma saucer_contract_steady (n : nat) (st : Store) :
  steady st (saucer_contract n st).2.
Proof.
apply: SUM_MU_steady => mu s; rewrite /bind /read_S_body /read_S_loop /=.
by do 2![case: vec_at => [?|?] //=].
Qed.

Lemma eye_contract_steady (n : nat) (st : Store) :
  steady st (eye_contract n st).2.
Proof.
apply: SUM_MU_steady => mu s; rewrite /bind /read_E_body /read_E_loop /=.
by do 2![case: vec_at => [?|?] //=].
Qed.

End MorePhases.

Section RoomyPhases.

Variable C : numClosedFieldType.
Variable space : finType.
Variable Lt : nat.
Variable g5 : SitePropagator C.
Variable gL : nat -> SitePropagator C.

Local Notation Store := (Store C space Lt).
Local Notation Scratch := (Scratch C space Lt).
Local Notation PropagatorField := (PropagatorField C space Lt).
Local Notation LatticeComplex := (LatticeComplex C space Lt).

Lemma roomyP (n : nat) (sc : Scratch) :
  reflect [/\ (n <= size (S_body sc))%N, (n <= size (S_loop sc))%N,
              (n <= size (E_body sc))%N & (n <= size (E_loop sc))%N]
          (roomy n sc).
Proof. exact: and4P. Qed.

(** *** A phase with room returns *)

(** Setup for S-type contractions writes the entries below [n] and no
    other. *)
Lemma saucer_setup_roomy (n : nat) (q1Snk : SitePropagator C)
    (Q2 Q3 Q4 : PropagatorField) (st : Store) :
  (n <= size (S_body (scratch st)))%N ->
  (n <= size (S_loop (scratch st)))%N ->
  saucer_setup g5 gL n q1Snk Q2 Q3 Q4 st
  = (Ok tt,
     with_scratch (fun sc =>
       set_S_loop (S_loop_of gL n Q4 ++ drop n (S_loop sc))
         (set_S_body (S_body_of g5 gL n q1Snk Q2 Q3 ++ drop n (S_body sc))
            sc)) st).
Proof.
move=> size_b size_l.
pose body := body_of g5 gL q1Snk Q2 Q3; pose loop := loop_of gL Q4.
pose I k (s : Store) :=
  s = with_scratch (fun sc =>
        set_S_loop (mkseq loop k ++ drop k (S_loop sc))
          (set_S_body (mkseq body k ++ drop k (S_body sc)) sc)) st.
have I0 : I 0%N st by rewrite /I /with_scratch /= !drop0 store_eta.
apply: (for_each_directions_eq I0) => [mu s lt_mu ->|s -> //].
exists (with_scratch (fun sc =>
      set_S_loop (mkseq loop mu.+1 ++ drop mu.+1 (S_loop sc))
        (set_S_body (mkseq body mu.+1 ++ drop mu.+1 (S_body sc)) sc)) st);
  last by [].
rewrite /bind /assign_S_body /assign_S_loop /bind /gets /lift /modify /=.
by rewrite !vec_set_next ?(leq_trans lt_mu).
Qed.

Lemma saucer_contract_roomy (n : nat) (st : Store) :
  (n <= size (S_body (scratch st)))%N ->
  (n <= size (S_loop (scratch st)))%N ->
  saucer_contract n st
  = (Ok tt,
     with_scratch (fun sc =>
       set_expbuf (saucer_sum n (S_body sc) (S_loop sc)) sc) st).
Proof.
move=> size_b size_l; rewrite /saucer_contract.
pose r mu := lat_trace (lat_mul (nth 0 (S_body (scratch st)) mu)
                                (nth 0 (S_loop (scratch st)) mu)).
set res := fun mu : nat => _.
have res_ok mu e : (mu < n)%N ->
    res mu (with_scratch (set_expbuf e) st)
    = (Ok (r mu), with_scratch (set_expbuf e) st).
  move=> lt_mu; rewrite /res /bind /read_S_body /read_S_loop /=.
  by rewrite !(vec_at_nth 0) ?(leq_trans lt_mu).
rewrite (SUM_MU_ok res_ok).
congr (_, _); apply: set_expbuf_eq; apply/ffunP=> x; rewrite !ffunE.
by apply: eq_bigr => mu _; rewrite !ffunE.
Qed.

(** Recycling writes the entries below [n] and no other. *)
Lemma eye_setup_roomy (n : nat) (st : Store) :
  roomy n (scratch st) ->
  eye_setup n st
  = (Ok tt,
     with_scratch (fun sc =>
       set_E_loop
         (mkseq (fun mu => lat_trace (nth 0 (S_loop sc) mu)) n
          ++ drop n (E_loop sc))
         (set_E_body
            (mkseq (fun mu => lat_trace (nth 0 (S_body sc) mu)) n
             ++ drop n (E_body sc)) sc)) st).
Proof.
case/roomyP=> size_b size_l size_eb size_el.
pose tb mu := lat_trace (nth 0 (S_body (scratch st)) mu).
pose tl mu := lat_trace (nth 0 (S_loop (scratch st)) mu).
pose I k (s : Store) :=
  s = with_scratch (fun sc =>
        set_E_loop (mkseq tl k ++ drop k (E_loop sc))
          (set_E_body (mkseq tb k ++ drop k (E_body sc)) sc)) st.
have I0 : I 0%N st by rewrite /I /with_scratch /= !drop0 store_eta.
apply: (for_each_directions_eq I0) => [mu s lt_mu ->|s -> //].
exists (with_scratch (fun sc =>
      set_E_loop (mkseq tl mu.+1 ++ drop mu.+1 (E_loop sc))
        (set_E_body (mkseq tb mu.+1 ++ drop mu.+1 (E_body sc)) sc)) st);
  last by [].
rewrite /bind /read_S_body /read_S_loop /assign_E_body /assign_E_loop.
rewrite /bind /gets /lift /modify /=.
rewrite (vec_at_nth 0) ?(leq_trans lt_mu) // -/(tb mu).
rewrite vec_set_next ?(leq_trans lt_mu) //=.
rewrite (vec_at_nth 0) ?(leq_trans lt_mu) // -/(tl mu).
by rewrite vec_set_next ?(leq_trans lt_mu).
Qed.

Lemma eye_contract_roomy (n : nat) (st : Store) :
  (n <= size (E_body (scratch st)))%N ->
  (n <= size (E_loop (scratch st)))%N ->
  eye_contract n st
  = (Ok tt,
     with_scratch (fun sc =>
       set_expbuf (eye_sum n (E_body sc) (E_loop sc)) sc) st).
Proof.
move=> size_b size_l; rewrite /eye_contract.
pose r mu := cplx_mul (nth 0 (E_body (scratch st)) mu)
                      (nth 0 (E_loop (scratch st)) mu).
set res := fun mu : nat => _.
have res_ok mu e : (mu < n)%N ->
    res mu (with_scratch (set_expbuf e) st)
    = (Ok (r mu), with_scratch (set_expbuf e) st).
  move=> lt_mu; rewrite /res /bind /read_E_body /read_E_loop /=.
  by rewrite !(vec_at_nth 0) ?(leq_trans lt_mu).
rewrite (SUM_MU_ok res_ok).
congr (_, _); apply: set_expbuf_eq; apply/ffunP=> x; rewrite !ffunE.
by apply: eq_bigr => mu _; rewrite !ffunE.
Qed.

(** The sums look at the entries below [n] only. *)
Lemma saucer_sum_cat (n : nat) (b l rb rl : seq PropagatorField) :
  size b = n -> size l = n ->
  saucer_sum n (b ++ rb) (l ++ rl) = saucer_sum n b l.
Proof.
move=> size_b size_l; apply/ffunP=> x; rewrite !ffunE.
by apply: eq_bigr => mu _; rewrite !nth_cat size_b size_l ltn_ord.
Qed.

Lemma eye_sum_cat (n : nat) (b l rb rl : seq LatticeComplex) :
  size b = n -> size l = n ->
  eye_sum n (b ++ rb) (l ++ rl) = eye_sum n b l.
Proof.
move=> size_b size_l; apply/ffunP=> x; rewrite !ffunE.
by apply: eq_bigr => mu _; rewrite !nth_cat size_b size_l ltn_ord.
Qed.

Lemma mkseq_trace_cat (n : nat) (f : nat -> PropagatorField)
    (rest : seq PropagatorField) :
  mkseq (fun mu => lat_trace (nth 0 (mkseq f n ++ rest) mu)) n
  = [seq lat_trace b | b <- mkseq f n].
Proof.
rewrite /mkseq -map_comp; apply/eq_in_map => mu; rewrite mem_iota /= add0n.
by move=> lt_mu; rewrite (nth_mkseq_cat _ _ _ lt_mu).
Qed.

End RoomyPhases.

(** ** More on a whole execution *)

Section MoreExecution.

Variable C : numClosedFieldType.
Variable space : finType.
Variable Lt : nat.
Variable g5 : SitePropagator C.
Variable gL : nat -> SitePropagator C.
Variable RESULT_FILE_NAME : string -> string.

Local Notation Store := (Store C space Lt).
Local Notation PropagatorField := (PropagatorField C space Lt).
Local Notation execute := (execute g5 gL RESULT_FILE_NAME).

(** With room in the scratch vectors an execution returns: it writes their
    entries below [Nd] and leaves the others. *)
Lemma execute_roomy (par : WeakHamiltonianPar) (st : Store)
    (Q1 : SlicedPropagator C) (Q2 Q3 Q4 : PropagatorField) :
  resolves par st Q1 Q2 Q3 Q4 -> (tSnk par < size Q1)%N ->
  roomy (Nd st) (scratch st) ->
  let n := Nd st in
  let file := RESULT_FILE_NAME (output par) in
  let q1Snk := nth 0 Q1 (tSnk par) in
  let sb := S_body_of g5 gL n q1Snk Q2 Q3 in
  let sl := S_loop_of gL n Q4 in
  execute par st
  = (Ok tt,
     MkStore (objects st) n
       (MkScratch (eye_field g5 gL n q1Snk Q2 Q3 Q4)
          (tmp1 (scratch st)) (tmp2 (scratch st))
          (sb ++ drop n (S_body (scratch st)))
          (sl ++ drop n (S_loop (scratch st)))
          ([seq lat_trace b | b <- sb] ++ drop n (E_body (scratch st)))
          ([seq lat_trace l | l <- sl] ++ drop n (E_loop (scratch st))))
       (rcons (rcons (io st) (Open file))
          (Write file "HW_Eye" (results_of g5 gL n q1Snk Q2 Q3 Q4)))).
Proof.
case=> get1 get2 get3 get4 lt_t /roomyP[size_b size_l size_eb size_el].
move=> n file q1Snk sb sl.
rewrite /execute /bind /openResultWriter /envGetSliced /envGetField /=.
rewrite get1 get2 get3 get4 /getNd /gets /lift (vec_at_nth 0) //.
rewrite saucer_setup_roomy //.
rewrite (@saucer_contract_roomy _ _ _ (Nd st));
  try by rewrite /= size_cat size_mkseq leq_addr.
rewrite /MAKE_DIAG /bind /gets /ret /vec_set /=.
rewrite (@eye_setup_roomy _ _ _ (Nd st));
  try by apply/roomyP; split; rewrite /= ?size_cat ?size_mkseq ?leq_addr.
rewrite (@eye_contract_roomy _ _ _ (Nd st));
  try by rewrite /= size_cat size_mkseq leq_addr.
rewrite /write /modify /results_of /TensorRemove /= !map_id.
rewrite /with_io /with_scratch /saucer_field /eye_field /= {}/sb {}/sl.
rewrite /S_body_of /S_loop_of !mkseq_trace_cat.
by rewrite !saucer_sum_cat ?size_mkseq // !eye_sum_cat ?size_map ?size_iota.
Qed.

(** Whatever its outcome, an execution keeps the two unused temporaries
    and the length of each scratch vector. *)
Lemma execute_steady (par : WeakHamiltonianPar) (st : Store) :
  steady st (execute par st).2.
Proof.
rewrite /execute /bind /openResultWriter /envGetSliced /envGetField /=.
set st1 := with_io _ st.
have steady1 : steady st st1 by [].
case: (lookup (q1 par) _) => [[Q1|?]|] //=.
case: (lookup (q2 par) _) => [[?|Q2]|] //=.
case: (lookup (q3 par) _) => [[?|Q3]|] //=.
case: (lookup (q4 par) _) => [[?|Q4]|] //=.
rewrite /lift; case: vec_at => [q1Snk|?] //=.
case run1: (saucer_setup _ _ _ _ _ _ _ _) => [[[]|e] s1];
  have := steady_trans steady1
            (saucer_setup_steady g5 gL (Nd st) q1Snk Q2 Q3 Q4 st1);
  rewrite run1 /= => steady2; last by [].
case run2: (saucer_contract _ _) => [[[]|e] s2];
  have := steady_trans steady2 (saucer_contract_steady (Nd st) s1);
  rewrite run2 /= => steady3; last by [].
rewrite /MAKE_DIAG /bind /gets /ret /=.
case run3: (eye_setup _ _) => [[[]|e] s3];
  have := steady_trans steady3 (eye_setup_steady (Nd st) s2);
  rewrite run3 /= => steady4; last by [].
case run4: (eye_contract _ _) => [[[]|e] s4];
  have := steady_trans steady4 (eye_contract_steady (Nd st) s3);
  by rewrite run4 /=.
Qed.

(** A sink time outside [q1] stops the execution at [q1[tSnk]], after the
    inputs were resolved and before any scratch field is written. *)
Lemma execute_sink_out (par : WeakHamiltonianPar) (st : Store) :
  resolvable par st -> ~~ sink_in_range par st ->
  execute par st
  = (Throw Undefined,
     with_io (rcons^~ (Open (RESULT_FILE_NAME (output par)))) st).
Proof.
rewrite /resolvable /sink_in_range /execute /bind /openResultWriter /=.
rewrite /envGetSliced /envGetField /=.
case: (lookup (q1 par) _) => [[Q1|?]|] //=.
case: (lookup (q2 par) _) => [[?|Q2]|] //=.
case: (lookup (q3 par) _) => [[?|Q3]|] //=.
case: (lookup (q4 par) _) => [[?|Q4]|] //= _.
by rewrite -leqNgt /lift => /vec_at_out ->.
Qed.

End MoreExecution.

(** ** The objects an execution reads *)

Section Natural.

Variable C : numClosedFieldType.
Variable space : finType.
Variable Lt : nat.
Variable g5 : SitePropagator C.
Variable gL : nat -> SitePropagator C.
Variable RESULT_FILE_NAME : string -> string.
Variable objs : seq (string * Object C space Lt).

Local Notation Store := (Store C space Lt).
Local Notation PropagatorField := (PropagatorField C space Lt).
Local Notation LatticeComplex := (LatticeComplex C space Lt).
Local Notation execute := (execute g5 gL RESULT_FILE_NAME).
Local Notation h := (with_objects objs).

Local Notation blind := (blind_to objs).

Lemma bind_blind (A B : Type) (m : Exec Store A) (k : A -> Exec Store B) :
  blind m -> (forall a, blind (k a)) -> blind (bind m k).
Proof. by move=> blind_m blind_k s; apply: bind_natural. Qed.

Lemma for_each_blind (body : nat -> Exec Store unit) (s : seq nat) :
  (forall mu, blind (body mu)) -> blind (for_each s body).
Proof. by move=> blind_body st; apply: for_each_natural. Qed.

Lemma assign_S_body_blind (mu : nat) (val : PropagatorField) :
  blind (assign_S_body mu val).
Proof.
move=> s; rewrite /assign_S_body /bind /gets /lift /modify /=.
by case: vec_set.
Qed.

Lemma assign_S_loop_blind (mu : nat) (val : PropagatorField) :
  blind (assign_S_loop mu val).
Proof.
move=> s; rewrite /assign_S_loop /bind /gets /lift /modify /=.
by case: vec_set.
Qed.

Lemma assign_E_body_blind (mu : nat) (val : LatticeComplex) :
  blind (assign_E_body mu val).
Proof.
move=> s; rewrite /assign_E_body /bind /gets /lift /modify /=.
by case: vec_set.
Qed.

Lemma assign_E_loop_blind (mu : nat) (val : LatticeComplex) :
  blind (assign_E_loop mu val).
Proof.
move=> s; rewrite /assign_E_loop /bind /gets /lift /modify /=.
by case: vec_set.
Qed.

Lemma saucer_setup_blind (n : nat) (q1Snk : SitePropagator C)
    (Q2 Q3 Q4 : PropagatorField) :
  blind (saucer_setup g5 gL n q1Snk Q2 Q3 Q4).
Proof.
apply: for_each_blind => mu; apply: bind_blind => [|_].
  exact: assign_S_body_blind.
exact: assign_S_loop_blind.
Qed.

Lemma eye_setup_blind (n : nat) : blind (eye_setup (C := C) (space := space) (Lt := Lt) n).
Proof.
apply: for_each_blind => mu; apply: bind_blind => [|b]; first by [].
apply: bind_blind => [|_]; first exact: assign_E_body_blind.
apply: bind_blind => [|l]; first by [].
exact: assign_E_loop_blind.
Qed.

Lemma SUM_MU_blind (n : nat) (res : nat -> Exec Store LatticeComplex) :
  (forall mu, blind (res mu)) -> blind (SUM_MU n res).
Proof.
move=> blind_res; apply: bind_blind => [|_]; first by [].
by apply: for_each_blind => mu; apply: bind_blind.
Qed.

Lemma saucer_contract_blind (n : nat) :
  blind (saucer_contract (C := C) (space := space) (Lt := Lt) n).
Proof.
apply: SUM_MU_blind => mu; apply: bind_blind => [|b]; first by [].
by apply: bind_blind.
Qed.

Lemma eye_contract_blind (n : nat) :
  blind (eye_contract (C := C) (space := space) (Lt := Lt) n).
Proof.
apply: SUM_MU_blind => mu; apply: bind_blind => [|b]; first by [].
by apply: bind_blind.
Qed.

(** An execution over another table of objects that resolves the four
    names alike runs the same. *)
Lemma execute_blind (par : WeakHamiltonianPar) (st : Store) :
  lookup (q1 par) objs = lookup (q1 par) (objects st) ->
  lookup (q2 par) objs = lookup (q2 par) (objects st) ->
  lookup (q3 par) objs = lookup (q3 par) (objects st) ->
  lookup (q4 par) objs = lookup (q4 par) (objects st) ->
  execute par (h st) = ((execute par st).1, h (execute par st).2).
Proof.
move=> same1 same2 same3 same4.
pose tail (writer : ResultWriter) (Q1 : SlicedPropagator C)
    (Q2 Q3 Q4 : PropagatorField) : Exec Store unit :=
  let result := nseq n_eye_diag (MkResult (C := C) EmptyString [::]) in
  bind (@getNd C space Lt) (fun ndim =>
  bind (lift (vec_at Q1 (tSnk par))) (fun q1Snk =>
  bind (saucer_setup g5 gL ndim q1Snk Q2 Q3 Q4) (fun _ =>
  bind (saucer_contract ndim) (fun _ =>
  bind (MAKE_DIAG "HW_S") (fun d =>
  bind (lift (vec_set result S_diag d.2)) (fun result =>
  bind (eye_setup ndim) (fun _ =>
  bind (eye_contract ndim) (fun _ =>
  bind (MAKE_DIAG "HW_E") (fun d =>
  bind (lift (vec_set result E_diag d.2)) (fun result =>
  write writer "HW_Eye" result)))))))))).
have blind_tail writer Q1 Q2 Q3 Q4 : blind (tail writer Q1 Q2 Q3 Q4).
  apply: bind_blind => [|ndim]; first by [].
  apply: bind_blind => [|q1Snk]; first by [].
  apply: bind_blind => [|_]; first exact: saucer_setup_blind.
  apply: bind_blind => [|_]; first exact: saucer_contract_blind.
  apply: bind_blind => [|d]; first by [].
  apply: bind_blind => [|result]; first by [].
  apply: bind_blind => [|_]; first exact: eye_setup_blind.
  apply: bind_blind => [|_]; first exact: eye_contract_blind.
  apply: bind_blind => [|d']; first by [].
  by apply: bind_blind.
have split_execute (s : Store) :
    execute par s
    = let s1 := with_io (rcons^~ (Open (RESULT_FILE_NAME (output par)))) s in
      match lookup (q1 par) (objects s), lookup (q2 par) (objects s),
            lookup (q3 par) (objects s), lookup (q4 par) (objects s) with
      | Some (Sliced Q1), Some (Field Q2), Some (Field Q3), Some (Field Q4) =>
          tail (RESULT_FILE_NAME (output par)) Q1 Q2 Q3 Q4 s1
      | _, _, _, _ => (Throw UnresolvedInputError, s1)
      end.
  rewrite /execute /bind /openResultWriter /envGetSliced /envGetField /=.
  case: (lookup (q1 par) _) => [[Q1|?]|] //=.
  case: (lookup (q2 par) _) => [[?|Q2]|] //=.
  case: (lookup (q3 par) _) => [[?|Q3]|] //=.
  by case: (lookup (q4 par) _) => [[?|Q4]|].
rewrite !split_execute /= same1 same2 same3 same4.
case: (lookup (q1 par) _) => [[Q1|?]|] //=.
case: (lookup (q2 par) _) => [[?|Q2]|] //=.
case: (lookup (q3 par) _) => [[?|Q3]|] //=.
case: (lookup (q4 par) _) => [[?|Q4]|] //=.
exact: (blind_tail _ Q1 Q2 Q3 Q4
          (with_io (rcons^~ (Open (RESULT_FILE_NAME (output par)))) st)).
Qed.

End Natural.

(** ** Further properties of the module *)

Section Further.

Variable C : numClosedFieldType.
Variable space : finType.
Variable Lt : nat.
Variable g5 : SitePropagator C.
Variable gL : nat -> SitePropagator C.
Variable RESULT_FILE_NAME : string -> string.

Local Notation Store := (Store C space Lt).
Local Notation PropagatorField := (PropagatorField C space Lt).
Local Notation LatticeComplex := (LatticeComplex C space Lt).
Local Notation Site := (Site space Lt).
Local Notation execute := (execute g5 gL RESULT_FILE_NAME).

(** X1. The correlators an execution writes are the ones the comment
    above [execute] gives: at each time [t], the Saucer entry is the sum
    over the spatial sites and the directions of
    [trace(q3*g5*q1*adj(q2)*g5*gL[mu]*q4*gL[mu])], and the Eye entry the
    sum of [trace(q3*g5*q1*adj(q2)*g5*gL[mu]) * trace(q4*gL[mu])], with
    [q1] taken at the sink time. *)
Theorem correlators_as_documented (par : WeakHamiltonianPar) (st : Store)
    (Q1 : SlicedPropagator C) (Q2 Q3 Q4 : PropagatorField) :
  ready par st Q1 Q2 Q3 Q4 ->
  let q1Snk := nth 0 Q1 (tSnk par) in
  let file := RESULT_FILE_NAME (output par) in
  exists st' cS cE,
    [/\ execute par st = (Ok tt, st'),
        io st'
        = rcons (rcons (io st) (Open file))
            (Write file "HW_Eye"
               [:: MkResult "HW_S" cS; MkResult "HW_E" cE]),
        forall t : 'I_Lt,
          nth 0 cS t
          = \sum_(x : space) \sum_(mu < Nd st)
              \tr (Q3 (x, t) *m g5 *m q1Snk *m adj (Q2 (x, t)) *m g5
                   *m gL mu *m Q4 (x, t) *m gL mu)
      & forall t : 'I_Lt,
          nth 0 cE t
          = \sum_(x : space) \sum_(mu < Nd st)
              \tr (Q3 (x, t) *m g5 *m q1Snk *m adj (Q2 (x, t)) *m g5
                   *m gL mu)
              * \tr (Q4 (x, t) *m gL mu)].
Proof.
move=> rdy q1Snk file; rewrite (execute_ready g5 gL RESULT_FILE_NAME rdy).
do 3!eexists; split; [by [] | by [] | |] => t.
  rewrite nth_sliceSum; apply: eq_bigr => x _.
  rewrite saucer_fieldE /saucer_site; apply: eq_bigr => mu _.
  by rewrite !mulmxA.
rewrite nth_sliceSum; apply: eq_bigr => x _.
by rewrite eye_fieldE.
Qed.

(** X2. [setup] then [execute]: with the inputs resolved and the sink time
    inside [q1], the pair returns whatever the scratch held before and
    whatever the newly constructed lattices hold, and neither shows in the
    two records written. *)
Theorem setup_then_execute (par : WeakHamiltonianPar) (st : Store)
    (Q1 : SlicedPropagator C) (Q2 Q3 Q4 : PropagatorField)
    (fresh_prop : PropagatorField) (fresh_cplx : LatticeComplex) :
  resolves par st Q1 Q2 Q3 Q4 -> (tSnk par < size Q1)%N ->
  let file := RESULT_FILE_NAME (output par) in
  exists st',
    [/\ bind (setup fresh_prop fresh_cplx) (fun _ => execute par) st
        = (Ok tt, st'),
        io st'
        = rcons (rcons (io st) (Open file))
            (Write file "HW_Eye"
               (results_of g5 gL (Nd st) (nth 0 Q1 (tSnk par)) Q2 Q3 Q4)),
        expbuf (scratch st')
        = eye_field g5 gL (Nd st) (nth 0 Q1 (tSnk par)) Q2 Q3 Q4
      & tmp1 (scratch st') = fresh_prop /\ tmp2 (scratch st') = fresh_cplx].
Proof.
move=> res lt_t file.
pose s := with_scratch (fun _ =>
  MkScratch fresh_cplx fresh_prop fresh_cplx
    (nseq (Nd st) fresh_prop) (nseq (Nd st) fresh_prop)
    (nseq (Nd st) fresh_cplx) (nseq (Nd st) fresh_cplx)) st.
have run_setup : setup fresh_prop fresh_cplx st = (Ok tt, s) by [].
have rdy : ready par s Q1 Q2 Q3 Q4.
  by split=> //; rewrite /allocated /= !size_nseq !eqxx.
rewrite /bind run_setup (execute_ready g5 gL RESULT_FILE_NAME rdy).
by eexists; split.
Qed.

(** X3. Executing again on the store an execution ended in returns
    again, leaves every scratch field as the first execution left it and
    writes the same two records once more. *)
Theorem execute_again (par : WeakHamiltonianPar) (st : Store)
    (Q1 : SlicedPropagator C) (Q2 Q3 Q4 : PropagatorField) :
  ready par st Q1 Q2 Q3 Q4 ->
  let file := RESULT_FILE_NAME (output par) in
  exists s1 s2 rs,
    [/\ execute par st = (Ok tt, s1),
        execute par s1 = (Ok tt, s2),
        scratch s2 = scratch s1,
        io s1 = rcons (rcons (io st) (Open file)) (Write file "HW_Eye" rs)
      & io s2 = rcons (rcons (io s1) (Open file)) (Write file "HW_Eye" rs)].
Proof.
move=> rdy file; have [res lt_t alloc] := rdy.
rewrite (execute_ready g5 gL RESULT_FILE_NAME rdy).
set s1 := final_store _ _ _ _ _ _ _ _.
have rdy1 : ready par s1 Q1 Q2 Q3 Q4.
  split=> //; apply/allocatedP.
  by split; rewrite /s1 /final_store /S_body_of /S_loop_of /= ?size_map size_iota.
exists s1; rewrite (execute_ready g5 gL RESULT_FILE_NAME rdy1).
by do 2!eexists; split.
Qed.

(** X4. Whatever its outcome, an execution never writes the temporaries
    [tmp1] and [tmp2] it fetches, and never changes the length of a scratch
    vector. *)
Theorem temporaries_and_lengths_kept (par : WeakHamiltonianPar)
    (st : Store) :
  let s' := (execute par st).2 in
  [/\ tmp1 (scratch s') = tmp1 (scratch st),
      tmp2 (scratch s') = tmp2 (scratch st),
      size (S_body (scratch s')) = size (S_body (scratch st)),
      size (S_loop (scratch s')) = size (S_loop (scratch st))
    & size (E_body (scratch s')) = size (E_body (scratch st))
      /\ size (E_loop (scratch s')) = size (E_loop (scratch st))].
Proof. exact: execute_steady. Qed.

(** X5. The sink time is not checked against [q1]: with the inputs
    resolved and [tSnk] not below the number of times of [q1], the read
    [q1[tSnk]] is outside the vector; the execution stops there, with the
    file opened, no scratch field written and no record written. *)
Theorem sink_time_outside (par : WeakHamiltonianPar) (st : Store) :
  resolvable par st -> ~~ sink_in_range par st ->
  [/\ (execute par st).1 = Throw Undefined,
      scratch (execute par st).2 = scratch st
    & io (execute par st).2
      = rcons (io st) (Open (RESULT_FILE_NAME (output par)))].
Proof.
move=> res out.
by rewrite (execute_sink_out g5 gL RESULT_FILE_NAME res out).
Qed.

(** X8. The writer on the result file is constructed before anything
    else: an execution that throws has opened the file and written no
    record. *)
Theorem failing_execution_opens_file (par : WeakHamiltonianPar)
    (st : Store) (e : Error) :
  (execute par st).1 = Throw e ->
  io (execute par st).2
  = rcons (io st) (Open (RESULT_FILE_NAME (output par)))
  /\ emitted (io (execute par st).2) = emitted (io st).
Proof.
have := execute_cases g5 gL RESULT_FILE_NAME par st.
case: (execute par st) => [[[]|e'] s] //= [_ _ ->] _; split=> //.
by rewrite /emitted -cats1 map_cat flatten_cat /= cats0.
Qed.

(** X9. With scratch vectors longer than the lattice has directions, an
    execution writes their entries below [Nd] and leaves every entry from
    [Nd] on as it was; the records are those of vectors of length [Nd]. *)
Theorem entries_beyond_directions_kept (par : WeakHamiltonianPar)
    (st : Store) (Q1 : SlicedPropagator C) (Q2 Q3 Q4 : PropagatorField) :
  resolves par st Q1 Q2 Q3 Q4 -> (tSnk par < size Q1)%N ->
  roomy (Nd st) (scratch st) ->
  let file := RESULT_FILE_NAME (output par) in
  exists st',
    [/\ execute par st = (Ok tt, st'),
        io st'
        = rcons (rcons (io st) (Open file))
            (Write file "HW_Eye"
               (results_of g5 gL (Nd st) (nth 0 Q1 (tSnk par)) Q2 Q3 Q4)),
        forall i : nat, (Nd st <= i)%N ->
          nth 0 (S_body (scratch st')) i = nth 0 (S_body (scratch st)) i
          /\ nth 0 (S_loop (scratch st')) i = nth 0 (S_loop (scratch st)) i
      & forall i : nat, (Nd st <= i)%N ->
          nth 0 (E_body (scratch st')) i = nth 0 (E_body (scratch st)) i
          /\ nth 0 (E_loop (scratch st')) i = nth 0 (E_loop (scratch st)) i].
Proof.
move=> res lt_t room file; have /roomyP[room_b room_l room_eb room_el] := room.
rewrite (execute_roomy g5 gL RESULT_FILE_NAME res lt_t room).
eexists; split; [by [] | by [] | |] => i le_i /=.
  by rewrite !nth_cat ?size_map ?size_iota ltnNge le_i /= !nth_drop subnKC.
by rewrite !nth_cat ?size_map ?size_iota ltnNge le_i /= !nth_drop subnKC.
Qed.

(** X10. An execution reads no object but the four [getInput] declares:
    over any other table of objects that resolves these names alike, it
    has the same outcome, leaves the same scratch and writes the same
    events, and it leaves that table as it is. *)
Theorem only_declared_inputs_read (par : WeakHamiltonianPar) (st : Store)
    (objs : seq (string * Object C space Lt)) :
  (forall n : string, has (String.eqb n) (getInput par) ->
     lookup n objs = lookup n (objects st)) ->
  [/\ (execute par (with_objects objs st)).1 = (execute par st).1,
      scratch (execute par (with_objects objs st)).2
      = scratch (execute par st).2,
      io (execute par (with_objects objs st)).2 = io (execute par st).2
    & objects (execute par (with_objects objs st)).2 = objs].
Proof.
move=> same.
rewrite (@execute_blind _ _ _ g5 gL RESULT_FILE_NAME objs par st) //;
  by apply: same; rewrite /getInput /= String.eqb_refl ?orbT.
Qed.

End Further.

(** ** The further properties on the example lattice *)

Lemma correlators_as_documented_witness :
  exists st' cS cE,
    execute Example.g5 Example.gL Example.RESULT_FILE_NAME Example.par
      (Example.store4 Example.unit_field) = (Ok tt, st')
    /\ emitted (io st') = [:: MkResult "HW_S" cS; MkResult "HW_E" cE].
Proof.
have rdy : ready Example.par (Example.store4 Example.unit_field)
             Example.sink Example.unit_field Example.unit_field
             Example.unit_field by split.
have [st' [cS [cE [run io_st' _ _]]]] :=
  correlators_as_documented Example.g5 Example.gL Example.RESULT_FILE_NAME
    rdy.
exists st', cS, cE; split; [exact: run | rewrite io_st'; reflexivity].
Defined.

Lemma setup_then_execute_witness :
  exists st',
    bind (setup (scale_field 2 Example.unit_field) 0)
         (fun _ => execute Example.g5 Example.gL Example.RESULT_FILE_NAME
                     Example.par)
         Corner.store_unset = (Ok tt, st')
    /\ tmp1 (scratch st') = scale_field 2 Example.unit_field.
Proof.
have res : resolves Example.par Corner.store_unset Example.sink
             Example.unit_field Example.unit_field Example.unit_field.
  by split.
have [st' [run _ _ [tmp1_st' _]]] :=
  setup_then_execute Example.g5 Example.gL Example.RESULT_FILE_NAME
    (scale_field 2 Example.unit_field) 0
    res (isT : (tSnk Example.par < size Example.sink)%N).
exists st'; split; [exact: run | exact: tmp1_st'].
Defined.

Lemma execute_again_witness :
  exists s1 s2,
    [/\ execute Example.g5 Example.gL Example.RESULT_FILE_NAME Example.par
          (Example.store4 Example.unit_field) = (Ok tt, s1),
        execute Example.g5 Example.gL Example.RESULT_FILE_NAME Example.par
          s1 = (Ok tt, s2)
      & scratch s2 = scratch s1].
Proof.
have rdy : ready Example.par (Example.store4 Example.unit_field)
             Example.sink Example.unit_field Example.unit_field
             Example.unit_field by split.
have [s1 [s2 [rs [run1 run2 same _ _]]]] :=
  execute_again Example.g5 Example.gL Example.RESULT_FILE_NAME rdy.
exists s1, s2; split; [exact: run1 | exact: run2 | exact: same].
Defined.

Lemma sink_time_outside_witness :
  (execute Example.g5 Example.gL Example.RESULT_FILE_NAME Corner.par_late
     (Example.store4 Example.unit_field)).1 = Throw Undefined.
Proof.
have res : resolvable Corner.par_late (Example.store4 Example.unit_field).
  by [].
have out : ~~ sink_in_range Corner.par_late
                (Example.store4 Example.unit_field) by [].
have [thrown _ _] :=
  sink_time_outside Example.g5 Example.gL Example.RESULT_FILE_NAME res out.
exact: thrown.
Defined.

Lemma failing_execution_opens_file_witness :
  io (execute Example.g5 Example.gL Example.RESULT_FILE_NAME Example.par
        Example.store_missing).2 = [:: Open "hw_eye.xml"].
Proof.
have thrown :
    (execute Example.g5 Example.gL Example.RESULT_FILE_NAME Example.par
       Example.store_missing).1 = Throw UnresolvedInputError.
  reflexivity.
have [opened _] := failing_execution_opens_file thrown.
exact: opened.
Defined.

Lemma entries_beyond_directions_kept_witness :
  exists st',
    execute Example.g5 Example.gL Example.RESULT_FILE_NAME Example.par
      Corner.store_wide = (Ok tt, st')
    /\ nth 0 (S_body (scratch st')) 2 = Example.unit_field.
Proof.
have res : resolves Example.par Corner.store_wide Example.sink
             Example.unit_field Example.unit_field Example.unit_field.
  by split.
have [st' [run _ kept_S _]] :=
  entries_beyond_directions_kept Example.g5 Example.gL
    Example.RESULT_FILE_NAME res
    (isT : (tSnk Example.par < size Example.sink)%N)
    (isT : roomy (Nd Corner.store_wide) (scratch Corner.store_wide)).
have [kept_body _] := kept_S 2%N isT.
exists st'; split; [exact: run | rewrite kept_body; reflexivity].
Defined.

Lemma only_declared_inputs_read_witness :
  (execute Example.g5 Example.gL Example.RESULT_FILE_NAME Example.par
     (with_objects Corner.objs_more
        (Example.store4 Example.unit_field))).1
  = (execute Example.g5 Example.gL Example.RESULT_FILE_NAME Example.par
       (Example.store4 Example.unit_field)).1.
Proof.
have same (n : string) :
    has (String.eqb n) (getInput Example.par) ->
    lookup n Corner.objs_more
    = lookup n (objects (Example.store4 Example.unit_field)).
  rewrite /= orbF => /or4P[] /String.eqb_eq ->; reflexivity.
have [same_outcome _ _ _] :=
  only_declared_inputs_read Example.g5 Example.gL Example.RESULT_FILE_NAME
    same.
exact: same_outcome.
Defined.
